(** * Lindhard bubble and RPA on the square lattice (TRIQS_Meeting_2019.ipynb)

    A shallow embedding of the notebook's own code: the dispersion helper
    [eps], the construction loop of [G0], the real-space / imaginary-time
    route to [chi0] (python cells), the compiled [bubble] function and the
    RPA closure [chi_RPA].

    Python floats and complex numbers are idealised as real numbers [R] and
    pairs of reals.  The pytriqs objects the notebook manipulates (lattice,
    tight-binding table, meshes, Green's function containers, evaluation at
    a point) are not part of the sources; they are modelled here as far as
    the notebook relies on them.  The numerical Fourier kernels of the
    library stay abstract (record [FourierKernels]), and library calls are
    total functions. *)

From Stdlib Require Import Reals Lra Lia ZArith List Bool String.
Import ListNotations.

Open Scope R_scope.

(** ** Complex scalars *)

Module Cplx.

Record C : Type := mkC { Re : R; Im : R }.

Definition RtoC (x : R) : C := mkC x 0.
Definition C0 : C := RtoC 0.
Definition C1 : C := RtoC 1.
Definition Ci : C := mkC 0 1.

Definition Cadd (a b : C) : C := mkC (Re a + Re b) (Im a + Im b).
Definition Csub (a b : C) : C := mkC (Re a - Re b) (Im a - Im b).
Definition Cmul (a b : C) : C :=
  mkC (Re a * Re b - Im a * Im b) (Re a * Im b + Im a * Re b).
Definition Cnorm2 (a : C) : R := Re a * Re a + Im a * Im a.
Definition Cinv (a : C) : C := mkC (Re a / Cnorm2 a) (- Im a / Cnorm2 a).
Definition Cdiv (a b : C) : C :=
  mkC ((Re a * Re b + Im a * Im b) / Cnorm2 b)
      ((Im a * Re b - Re a * Im b) / Cnorm2 b).

(** exp(i x) *)
Definition Cexp_i (x : R) : C := mkC (cos x) (sin x).

Definition Csum (l : list C) : C := fold_right Cadd C0 l.

End Cplx.
Import Cplx.

Declare Scope C_scope.
Delimit Scope C_scope with C.
Bind Scope C_scope with C.
Infix "+" := Cadd : C_scope.
Infix "-" := Csub : C_scope.
Infix "*" := Cmul : C_scope.
Infix "/" := Cdiv : C_scope.

(** ** The library objects used by the notebook *)

Inductive statistic_enum : Type := Boson | Fermion.

Module Triqs.

(** Modelled from the spec: [BravaisLattice] belongs to the pytriqs library,
    which is not part of the sources; a lattice is its list of unit vectors,
    [dim] their number. *)
Record BravaisLattice : Type := { units : list (list Z) }.

Definition dim (BL : BravaisLattice) : nat := List.length (units BL).

(** Modelled from the spec: [TightBinding] (pytriqs) pairs a lattice with the
    hopping table, a dictionary from integer displacement vectors to hopping
    matrices; kept as an association list in the order of the literal. *)
Record TightBinding : Type :=
  { tb_lattice : BravaisLattice;
    tb_hop : list (list Z * list (list R)) }.

Definition dot (K : list R) (d : list Z) : R :=
  fold_right Rplus 0 (map (fun p => fst p * IZR (snd p)) (combine K d)).

(** single-orbital amplitude of a hopping matrix, entry [0][0] *)
Definition amplitude (m : list (list R)) : R := nth 0 (nth 0 m []) 0.

(** Modelled from the spec: the Fourier transform of the hopping table at a
    point [K] given in units of the reciprocal lattice vectors,
    h(K) = sum over displacements d of t_d * exp(2 pi i K.d). *)
Definition fourier_hop (TB : TightBinding) (K : list R) : C :=
  Csum (map (fun e => RtoC (amplitude (snd e)) * Cexp_i (2 * PI * dot K (fst e)))%C
            (tb_hop TB)).

Definition path_point (K1 K2 : list R) (n_pts : nat) (i : nat) : list R :=
  map (fun p => fst p + INR i * ((snd p - fst p) / INR n_pts)) (combine K1 K2).

(** Modelled from the spec: [energies_on_bz_path] (pytriqs) returns the real
    array [band][point] of the eigenvalues of h(K) along the segment from
    [K1] to [K2]; for the single-orbital models of the notebook the 1x1
    Hermitian eigenvalue is the real part of h(K). *)
Definition energies_on_bz_path (TB : TightBinding) (K1 K2 : list R)
    (n_pts : nat) : list (list R) :=
  [ map (fun i => Re (fourier_hop TB (path_point K1 K2 n_pts i))) (seq 0 n_pts) ].

End Triqs.
Import Triqs.

(** ** Parameters and lattice of the notebook *)

(** [BL = BravaisLattice(units = [(1, 0), (0, 1)])] *)
Definition BL : BravaisLattice := {| units := [[1; 0]; [0; 1]]%Z |}.

(** the [hop] dictionary, for a nearest-neighbour hopping [t] *)
Definition hop (t : R) : list (list Z * list (list R)) :=
  [ ([1; 0]%Z, [[t]]);
    ([-1; 0]%Z, [[t]]);
    ([0; 1]%Z, [[t]]);
    ([0; -1]%Z, [[t]]) ].

(** [TB = TightBinding(BL, hop)] *)
Definition TB (t : R) : TightBinding := {| tb_lattice := BL; tb_hop := hop t |}.

(** ** The dispersion helper *)

(** [def eps(BL, TB, k)]: the momentum is rescaled by 1/(2 pi) along the
    [BL.dim] lattice directions and handed twice to [energies_on_bz_path]
    with a single path point; entry [0,0] of the result is returned. *)
Definition eps (BL : BravaisLattice) (TB : TightBinding) (k : list R) : R :=
  let K := map (fun i => nth i k 0 * 1 / (2 * PI)) (seq 0 (dim BL)) in
  nth 0 (nth 0 (energies_on_bz_path TB K K 1) []) 0.

(** the sum the specification writes for the band energy *)
Definition dispersion_sum (TB : TightBinding) (k : list R) : C :=
  Csum (map (fun e => RtoC (amplitude (snd e)) * Cexp_i (dot k (fst e)))%C
            (tb_hop TB)).

(** ** Meshes *)

(** Modelled from the spec: a mesh (pytriqs) is an ordered finite list of
    grid points, each named by an index. *)
Class Mesh (M : Type) : Type :=
  { index : Type;
    index_eq_dec : forall a b : index, {a = b} + {a <> b};
    points : M -> list index }.

Arguments index M {_}.

Record BrillouinZone : Type := { bz_lattice : BravaisLattice }.

(** Modelled from the spec: [MeshBrillouinZone(BrillouinZone(BL), n_k)]
    (pytriqs) has n_k x n_k points (i, j) for a lattice in two dimensions. *)
Record MeshBrillouinZone : Type := { k_bz : BrillouinZone; k_n : nat }.

(** Modelled from the spec: the mesh of lattice sites (pytriqs), Fourier dual
    of a momentum mesh. *)
Record MeshCyclicLattice : Type := { r_lattice : BravaisLattice; r_n : nat }.

(** Modelled from the spec: [MeshImFreq(beta, statistic, n_iw)] (pytriqs). *)
Record MeshImFreq : Type :=
  { iw_beta : R; iw_statistic : statistic_enum; iw_n : nat }.

(** Modelled from the spec: [MeshImTime(beta, statistic, n_tau)] (pytriqs),
    in the compiled cell [gf_mesh<imtime>{beta, S, n}]. *)
Record MeshImTime : Type :=
  { tau_beta : R; tau_statistic : statistic_enum; tau_n : nat }.

Definition Z_range (first : Z) (len : nat) : list Z :=
  map (fun j => (first + Z.of_nat j)%Z) (seq 0 len).

Definition grid (n : nat) : list (Z * Z) :=
  list_prod (Z_range 0 n) (Z_range 0 n).

Definition ZZ_eq_dec (a b : Z * Z) : {a = b} + {a <> b}.
Proof. decide equality; apply Z.eq_dec. Defined.

#[global] Instance Mesh_BrillouinZone : Mesh MeshBrillouinZone :=
  {| index := Z * Z; index_eq_dec := ZZ_eq_dec; points := fun m => grid (k_n m) |}.

#[global] Instance Mesh_CyclicLattice : Mesh MeshCyclicLattice :=
  {| index := Z * Z; index_eq_dec := ZZ_eq_dec; points := fun m => grid (r_n m) |}.

(** Modelled from the spec: the Matsubara indices of a frequency mesh
    (pytriqs) run over -n_iw .. n_iw-1 for fermions and -(n_iw-1) .. n_iw-1
    for bosons. *)
Definition iw_first_index (m : MeshImFreq) : Z :=
  match iw_statistic m with
  | Fermion => (- Z.of_nat (iw_n m))%Z
  | Boson => (- (Z.of_nat (iw_n m) - 1))%Z
  end.

Definition iw_size (m : MeshImFreq) : nat :=
  match iw_statistic m with
  | Fermion => 2 * iw_n m
  | Boson => 2 * iw_n m - 1
  end.

#[global] Instance Mesh_ImFreq : Mesh MeshImFreq :=
  {| index := Z; index_eq_dec := Z.eq_dec;
     points := fun m => Z_range (iw_first_index m) (iw_size m) |}.

#[global] Instance Mesh_ImTime : Mesh MeshImTime :=
  {| index := Z; index_eq_dec := Z.eq_dec;
     points := fun m => Z_range 0 (tau_n m) |}.

Definition prod_eq_dec {A B : Type}
    (da : forall a b : A, {a = b} + {a <> b})
    (db : forall a b : B, {a = b} + {a <> b})
    (p q : A * B) : {p = q} + {p <> q}.
Proof. decide equality. Defined.

(** Modelled from the spec: [MeshProduct(m1, m2)] (pytriqs) is the Cartesian
    product, the first mesh being the slow axis of the iteration. *)
#[global] Instance MeshProduct {M1 M2 : Type} `{Mesh M1} `{Mesh M2} : Mesh (M1 * M2) :=
  {| index := index M1 * index M2;
     index_eq_dec := prod_eq_dec index_eq_dec index_eq_dec;
     points := fun m => list_prod (points (fst m)) (points (snd m)) |}.

(** *** Values of the mesh points *)

(** Modelled from the spec: the momentum of the mesh point (i, j) (pytriqs);
    for the square lattice the reciprocal vectors are 2 pi (1,0) and
    2 pi (0,1), the third component stays 0. *)
Definition k_value (m : MeshBrillouinZone) (p : Z * Z) : list R :=
  [ 2 * PI * IZR (fst p) / INR (k_n m); 2 * PI * IZR (snd p) / INR (k_n m); 0 ].

(** Modelled from the spec: the lattice vector [r.value] of the site (i, j)
    (pytriqs). *)
Definition r_value (p : Z * Z) : list Z := [fst p; snd p; 0%Z].

(** Modelled from the spec: the value of a Matsubara mesh point (pytriqs),
    i omega_n = i (2n+1) pi / beta for fermions, i 2n pi / beta for bosons. *)
Definition iw_value (m : MeshImFreq) (n : Z) : C :=
  (Ci * RtoC (PI * IZR (2 * n + match iw_statistic m with Fermion => 1 | Boson => 0 end) / iw_beta m))%C.

Definition tau_delta (m : MeshImTime) : R := tau_beta m / (INR (tau_n m) - 1).

(** Modelled from the spec: the value of a time mesh point (pytriqs),
    tau_i = i * beta / (n_tau - 1); the mesh is symmetric around beta / 2,
    both 0 and beta are sampled. *)
Definition tau_value (m : MeshImTime) (i : Z) : R := IZR i * tau_delta m.

(** ** Green's function containers *)

(** Modelled from the spec: a [Gf] (pytriqs) maps the points of its mesh to
    complex scalars ([target_shape=[]]). *)
Record Gf (M : Type) `{Mesh M} : Type := { mesh : M; data : index M -> C }.

Arguments mesh {M _} g.
Arguments data {M _} g p.

(** Modelled from the spec: [Gf(mesh=m, target_shape=[])] (pytriqs) is
    scalar valued and zero initialised. *)
Definition Gf_new {M} `{Mesh M} (m : M) : Gf M :=
  {| mesh := m; data := fun _ => C0 |}.

(** Modelled from the spec: item assignment [g[p] = v] (pytriqs). *)
Definition setitem {M} `{Mesh M} (g : Gf M) (p : index M) (v : C) : Gf M :=
  {| mesh := mesh g;
     data := fun q => if index_eq_dec q p then v else data g q |}.

(** [for p in g.mesh: g[p] = f(p)] *)
Definition fill {M} `{Mesh M} (g : Gf M) (f : index M -> C) : Gf M :=
  fold_left (fun G p => setitem G p (f p)) (points (mesh g)) g.

(** Modelled from the spec: the slices [g[:, j]] and [g[i, :]] (pytriqs) are
    containers on the remaining mesh. *)
Definition slice_col {M1 M2} `{Mesh M1} `{Mesh M2} (g : Gf (M1 * M2)) (j : index M2) : Gf M1 :=
  {| mesh := fst (mesh g); data := fun i => data g (i, j) |}.

Definition slice_row {M1 M2} `{Mesh M1} `{Mesh M2} (g : Gf (M1 * M2)) (i : index M1) : Gf M2 :=
  {| mesh := snd (mesh g); data := fun j => data g (i, j) |}.

(** Modelled from the spec: the slice assignments [g[:, j] = h] and
    [g[i, :] = h] (pytriqs) between containers on the same mesh copy the
    values of [h] into the slice; the mesh of [g] is kept. *)
Definition assign_col {M1 M2} `{Mesh M1} `{Mesh M2} (g : Gf (M1 * M2)) (j : index M2)
    (h : Gf M1) : Gf (M1 * M2) :=
  {| mesh := mesh g;
     data := fun p : @index (M1 * M2) MeshProduct =>
       if @index_eq_dec M2 _ (snd p) j then data h (fst p) else data g p |}.

Definition assign_row {M1 M2} `{Mesh M1} `{Mesh M2} (g : Gf (M1 * M2)) (i : index M1)
    (h : Gf M2) : Gf (M1 * M2) :=
  {| mesh := mesh g;
     data := fun p : @index (M1 * M2) MeshProduct =>
       if @index_eq_dec M1 _ (fst p) i then data h (snd p) else data g p |}.

(** Modelled from the spec: the arithmetic of scalar valued containers
    (pytriqs) acts pointwise on the data (elementwise product, scalar
    multiple, scalar minus container, [inverse]) and returns a container on
    the mesh of its (left) operand. *)
Definition Gf_mul {M} `{Mesh M} (g h : Gf M) : Gf M :=
  {| mesh := mesh g; data := fun p => (data g p * data h p)%C |}.

Definition Gf_scale {M} `{Mesh M} (x : R) (g : Gf M) : Gf M :=
  {| mesh := mesh g; data := fun p => (RtoC x * data g p)%C |}.

Definition Gf_rsub {M} `{Mesh M} (x : R) (g : Gf M) : Gf M :=
  {| mesh := mesh g; data := fun p => (RtoC x - data g p)%C |}.

Definition inverse {M} `{Mesh M} (g : Gf M) : Gf M :=
  {| mesh := mesh g; data := fun p => Cinv (data g p) |}.

(** the container types named in the compiled cell *)
Definition g_k_iw_type : Type := Gf (MeshBrillouinZone * MeshImFreq).
Definition chi_r_tau_type : Type := Gf (MeshCyclicLattice * MeshImTime).

(** *** Evaluation at a point *)

(** Modelled from the spec: an integer lattice vector handed to a container
    (pytriqs) is folded back onto the cyclic mesh componentwise. *)
Definition index_modulo (m : MeshCyclicLattice) (r : list Z) : Z * Z :=
  ((nth 0 r 0 mod Z.of_nat (r_n m))%Z, (nth 1 r 0 mod Z.of_nat (r_n m))%Z).

(** Modelled from the spec: evaluation of a container at an arbitrary time
    (pytriqs) looks the value up on the time mesh: the two neighbouring
    samples [i], [i+1] and the weight [w] of the second one; at the right end
    of the mesh the last interval is used with weight 1. *)
Definition get_interpolation_data (m : MeshImTime) (x : R) : Z * R :=
  let a := (x - 0) / tau_delta m in
  let i := Int_part a in
  let w := a - IZR i in
  if (i =? Z.of_nat (tau_n m) - 1)%Z then ((i - 1)%Z, 1) else (i, w).

Definition evaluate_tau (m : MeshImTime) (f : Z -> C) (x : R) : C :=
  let '(i, w) := get_interpolation_data m x in
  (RtoC (1 - w) * f i + RtoC w * f (i + 1)%Z)%C.

(** [g(r, x)] for a container on lattice sites x imaginary time *)
Definition call_r_tau (g : Gf (MeshCyclicLattice * MeshImTime)) (r : list Z) (x : R) : C :=
  evaluate_tau (snd (mesh g))
    (fun i => data g (index_modulo (fst (mesh g)) r, i)) x.

(** *** Fourier transforms *)

(** The numerical part of the library's transforms is not fixed here: the
    four one-dimensional kernels and the default sizes of the dual Matsubara
    meshes are parameters of the development. *)
Record FourierKernels : Type :=
  { n_tau_of : nat -> nat;
    n_iw_of : nat -> nat;
    k_to_r : MeshBrillouinZone -> (Z * Z -> C) -> Z * Z -> C;
    r_to_k : MeshCyclicLattice -> (Z * Z -> C) -> Z * Z -> C;
    iw_to_tau : MeshImFreq -> (Z -> C) -> Z -> C;
    tau_to_iw : MeshImTime -> (Z -> C) -> Z -> C }.

(** outcome of a call that may raise *)
Inductive outcome (A : Type) : Type :=
  | Returned (a : A)
  | Raised (msg : string).

Arguments Returned {A} a.
Arguments Raised {A} msg.

Section Library.

Variable F : FourierKernels.

(** Modelled from the spec: [make_adjoint_mesh] (pytriqs) returns the Fourier
    dual mesh; it keeps lattice and resolution, resp. beta and statistics. *)
Definition make_adjoint_mesh_k (m : MeshBrillouinZone) : MeshCyclicLattice :=
  {| r_lattice := bz_lattice (k_bz m); r_n := k_n m |}.

Definition make_adjoint_mesh_r (m : MeshCyclicLattice) : MeshBrillouinZone :=
  {| k_bz := {| bz_lattice := r_lattice m |}; k_n := r_n m |}.

Definition make_adjoint_mesh_iw (m : MeshImFreq) : MeshImTime :=
  {| tau_beta := iw_beta m; tau_statistic := iw_statistic m;
     tau_n := n_tau_of F (iw_n m) |}.

Definition make_adjoint_mesh_tau (m : MeshImTime) : MeshImFreq :=
  {| iw_beta := tau_beta m; iw_statistic := tau_statistic m;
     iw_n := n_iw_of F (tau_n m) |}.

(** Modelled from the spec: [make_gf_from_fourier] (pytriqs) on a container
    over one mesh returns a container on the dual mesh; one definition per
    mesh kind. *)
Definition make_gf_from_fourier_k (g : Gf MeshBrillouinZone) : Gf MeshCyclicLattice :=
  {| mesh := make_adjoint_mesh_k (mesh g); data := k_to_r F (mesh g) (data g) |}.

Definition make_gf_from_fourier_r (g : Gf MeshCyclicLattice) : Gf MeshBrillouinZone :=
  {| mesh := make_adjoint_mesh_r (mesh g); data := r_to_k F (mesh g) (data g) |}.

Definition make_gf_from_fourier_iw (g : Gf MeshImFreq) : Gf MeshImTime :=
  {| mesh := make_adjoint_mesh_iw (mesh g); data := iw_to_tau F (mesh g) (data g) |}.

Definition make_gf_from_fourier_tau (g : Gf MeshImTime) : Gf MeshImFreq :=
  {| mesh := make_adjoint_mesh_tau (mesh g); data := tau_to_iw F (mesh g) (data g) |}.

(** Modelled from the spec: [make_gf_from_fourier<0,1>] transforms both axes
    of a product mesh, one axis at a time. *)
Definition make_gf_from_fourier_01_k_iw (g : Gf (MeshBrillouinZone * MeshImFreq))
    : Gf (MeshCyclicLattice * MeshImTime) :=
  {| mesh := (make_adjoint_mesh_k (fst (mesh g)), make_adjoint_mesh_iw (snd (mesh g)));
     data := fun p : index (MeshCyclicLattice * MeshImTime) =>
       iw_to_tau F (snd (mesh g))
         (fun n => k_to_r F (fst (mesh g)) (fun k => data g (k, n)) (fst p)) (snd p) |}.

Definition make_gf_from_fourier_01_r_tau (g : Gf (MeshCyclicLattice * MeshImTime))
    : Gf (MeshBrillouinZone * MeshImFreq) :=
  {| mesh := (make_adjoint_mesh_r (fst (mesh g)), make_adjoint_mesh_tau (snd (mesh g)));
     data := fun p : index (MeshBrillouinZone * MeshImFreq) =>
       tau_to_iw F (snd (mesh g))
         (fun i => r_to_k F (fst (mesh g)) (fun r => data g (r, i)) (fst p)) (snd p) |}.

(** ** The compiled [bubble] *)

(** the local [chi0] of [bubble] once the lazy assignment has run *)
Definition bubble_chi0 (g0 : g_k_iw_type) : chi_r_tau_type :=
  let g0_r_tau := make_gf_from_fourier_01_k_iw g0 in
  let '(r_mesh, tau_mesh) := mesh g0_r_tau in
  let beta := tau_beta tau_mesh in
  let tau_mesh_bosonic :=
    {| tau_beta := beta; tau_statistic := Boson; tau_n := tau_n tau_mesh |} in
  let chi0 : chi_r_tau_type := Gf_new (r_mesh, tau_mesh_bosonic) in
  fill chi0 (fun p : index (MeshCyclicLattice * MeshImTime) =>
    (call_r_tau g0_r_tau (map Z.opp (r_value (fst p)))
                (beta - tau_value tau_mesh_bosonic (snd p))
     * data g0_r_tau (fst p, snd p))%C).

(** [g_k_iw_type bubble(g_k_iw_type g0)]: the body has no check and no
    [throw] of its own.  Whether one of the library calls it makes raises on
    an ill-formed mesh is not modelled (library calls are total here), so
    nothing about failures of the call can be read off this definition. *)
Definition bubble (g0 : g_k_iw_type) : outcome g_k_iw_type :=
  Returned (make_gf_from_fourier_01_r_tau (bubble_chi0 g0)).

(** ** The notebook cells *)

Section Notebook.

Variables (beta mu t : R) (n_k n_iw : nat).

Definition n_q : nat := n_k.
Definition n_iW : nat := n_iw.

Definition k_mesh : MeshBrillouinZone :=
  {| k_bz := {| bz_lattice := BL |}; k_n := n_k |}.
Definition iw_mesh : MeshImFreq :=
  {| iw_beta := beta; iw_statistic := Fermion; iw_n := n_iw |}.
Definition k_iw_mesh : MeshBrillouinZone * MeshImFreq := (k_mesh, iw_mesh).

Definition q_mesh : MeshBrillouinZone :=
  {| k_bz := {| bz_lattice := BL |}; k_n := n_q |}.
Definition iW_mesh : MeshImFreq :=
  {| iw_beta := beta; iw_statistic := Boson; iw_n := n_iW |}.
Definition q_iW_mesh : MeshBrillouinZone * MeshImFreq := (q_mesh, iW_mesh).

(** the right-hand side [1. / (iw - eps(BL,TB,k) + mu)] *)
Definition G0_denominator (p : index (MeshBrillouinZone * MeshImFreq)) : C :=
  (iw_value iw_mesh (snd p) - RtoC (eps BL (TB t) (k_value k_mesh (fst p))) + RtoC mu)%C.

(** [G0 = Gf(mesh=k_iw_mesh, target_shape=[])] followed by the loop
    [for k, iw in k_iw_mesh: G0[k,iw] = 1. / (iw - eps(BL,TB,k) + mu)] *)
Definition G0 : Gf (MeshBrillouinZone * MeshImFreq) :=
  fill (Gf_new k_iw_mesh) (fun p => (C1 / G0_denominator p)%C).

Definition r_mesh : MeshCyclicLattice := make_adjoint_mesh_k k_mesh.
Definition tau_mesh : MeshImTime := make_adjoint_mesh_iw iw_mesh.
Definition r_tau_mesh : MeshCyclicLattice * MeshImTime := (r_mesh, tau_mesh).
Definition r_iw_mesh : MeshCyclicLattice * MeshImFreq := (r_mesh, iw_mesh).

(** [for iw in iw_mesh: G0_r_iw[:,iw] = make_gf_from_fourier(G0[:,iw])] *)
Definition G0_r_iw : Gf (MeshCyclicLattice * MeshImFreq) :=
  fold_left (fun G iw => assign_col G iw (make_gf_from_fourier_k (slice_col G0 iw)))
            (points iw_mesh) (Gf_new r_iw_mesh).

(** [for r in r_mesh: G0_r_tau[r,:] = make_gf_from_fourier(G0_r_iw[r,:])] *)
Definition G0_r_tau : Gf (MeshCyclicLattice * MeshImTime) :=
  fold_left (fun G r => assign_row G r (make_gf_from_fourier_iw (slice_row G0_r_iw r)))
            (points r_mesh) (Gf_new r_tau_mesh).

(** the reflected lookup of one loop iteration:
    [minus_r = -(np.array(r.value))], [minus_tau = beta - tau],
    [G0_r_tau(minus_r, minus_tau)] *)
Definition reflected_lookup (p : index (MeshCyclicLattice * MeshImTime)) : C :=
  let minus_r := map Z.opp (r_value (fst p)) in
  let minus_tau := beta - tau_value tau_mesh (snd p) in
  call_r_tau G0_r_tau minus_r minus_tau.

(** [G0_minus_r_minus_tau = G0_r_tau.copy()], [.zero()], then the loop over
    [r_tau_mesh] *)
Definition G0_minus_r_minus_tau : Gf (MeshCyclicLattice * MeshImTime) :=
  fill (Gf_new (mesh G0_r_tau)) reflected_lookup.

(** [chi0_r_tau = G0_r_tau * G0_minus_r_minus_tau] *)
Definition chi0_r_tau : Gf (MeshCyclicLattice * MeshImTime) :=
  Gf_mul G0_r_tau G0_minus_r_minus_tau.

(** the container [chi0_r_iW = Gf(mesh=MeshProduct(r_mesh, iW_mesh), ...)] *)
Definition chi0_r_iW_new : Gf (MeshCyclicLattice * MeshImFreq) :=
  Gf_new (r_mesh, iW_mesh).

(** the value assigned to [chi0_r_iW[r,:]]:
    [make_gf_from_fourier(chi0_r_tau[r,:])].  The assignment itself, and the
    last loop that fills [chi0], store containers into slices built on
    another mesh; what the library does then is not fixed by the notebook
    and is left out of the model. *)
Definition chi0_r_iW_row (r : index MeshCyclicLattice) : Gf MeshImFreq :=
  make_gf_from_fourier_tau (slice_row chi0_r_tau r).

End Notebook.

End Library.

(** ** RPA *)

(** [chi_RPA = 2. * chi0 * inverse(1. - U * chi0)] *)
Definition chi_RPA {M} `{Mesh M} (U : R) (chi0 : Gf M) : Gf M :=
  Gf_mul (Gf_scale 2 chi0) (inverse (Gf_rsub 1 (Gf_scale U chi0))).

(** ** Notions used to state the properties *)

(** the mesh point of -k: the negated index folded back onto the mesh *)
Definition minus_k (m : MeshBrillouinZone) (p : Z * Z) : Z * Z :=
  ((- fst p) mod Z.of_nat (k_n m), (- snd p) mod Z.of_nat (k_n m))%Z.

(** a concrete kernel record, used to instantiate statements at explicit
    inputs: the sizes of the dual Matsubara meshes follow the defaults of
    the library (6 n_iw + 1 time points, (n_tau - 1) / 6 frequencies), the
    numerical kernels are left trivial *)
Definition sample_kernels : FourierKernels :=
  {| n_tau_of := fun n => (6 * n + 1)%nat;
     n_iw_of := fun n => ((n - 1) / 6)%nat;
     k_to_r := fun _ f => f;
     r_to_k := fun _ f => f;
     iw_to_tau := fun _ f => f;
     tau_to_iw := fun _ f => f |}.

(** the time index of beta - tau_i on a mesh of n samples *)
Definition reflected_tau (m : MeshImTime) (i : Z) : Z :=
  (Z.of_nat (tau_n m) - 1 - i)%Z.

(** ** Further notions *)

Definition Cconj (a : C) : C := mkC (Re a) (- Im a).

(** a transform kernel that reads its argument only at the points of the
    mesh it is given, as a transform of the stored samples does *)
Definition reads_mesh_only {M J : Type} `{Mesh M}
    (K : M -> (index M -> C) -> J -> C) : Prop :=
  forall (m : M) (f g : index M -> C),
    (forall p, In p (points m) -> f p = g p) ->
    forall j, K m f j = K m g j.

(** a kernel record whose kernels read the stored samples only (each output
    is the plain sum of the samples), with the default dual sizes *)
Definition sum_kernels : FourierKernels :=
  {| n_tau_of := fun n => (6 * n + 1)%nat;
     n_iw_of := fun n => ((n - 1) / 6)%nat;
     k_to_r := fun m f _ => Csum (map f (points m));
     r_to_k := fun m f _ => Csum (map f (points m));
     iw_to_tau := fun m f _ => Csum (map f (points m));
     tau_to_iw := fun m f _ => Csum (map f (points m)) |}.

(** the reflected mesh point (-r, beta - tau) of a point of a lattice x time
    mesh *)
Definition reflect_r_tau (m : MeshCyclicLattice * MeshImTime)
    (p : (Z * Z) * Z) : (Z * Z) * Z :=
  (index_modulo (fst m) (map Z.opp (r_value (fst p))),
   reflected_tau (snd m) (snd p)).

(** the mesh point of k + (pi, pi) on a momentum mesh of even resolution *)
Definition plus_Q (m : MeshBrillouinZone) (p : Z * Z) : Z * Z :=
  ((fst p + Z.of_nat (k_n m) / 2) mod Z.of_nat (k_n m),
   (snd p + Z.of_nat (k_n m) / 2) mod Z.of_nat (k_n m))%Z.

(** Modelled from the spec: [np.linspace(start, stop, num, endpoint=True)]
    (numpy) returns [num] evenly spaced samples, the first one [start], the
    step (stop - start) / (num - 1). *)
Definition linspace (start stop : R) (num : nat) : list R :=
  map (fun i => start + INR i * ((stop - start) / (INR num - 1))) (seq 0 num).

(** [q_linear = np.linspace(0., 2. * pi, n_q + 1, endpoint=True)] *)
Definition q_linear (n_k : nat) : list R := linspace 0 (2 * PI) (n_q n_k + 1).

(** * Properties *)

(** ** The meshes and the dispersion at explicit inputs *)

Example points_iw_mesh : points (iw_mesh 4 2) = [-2; -1; 0; 1]%Z.
Proof. reflexivity. Qed.

Example points_iW_mesh : points (iW_mesh 4 2) = [-1; 0; 1]%Z.
Proof. reflexivity. Qed.

Example points_k_mesh : points (k_mesh 2) = [(0, 0); (0, 1); (1, 0); (1, 1)]%Z.
Proof. reflexivity. Qed.

Example points_tau_mesh :
  points (tau_mesh sample_kernels 4 1) = [0; 1; 2; 3; 4; 5; 6]%Z.
Proof. reflexivity. Qed.

Example minus_k_example : minus_k (k_mesh 4) (1, 0)%Z = (3, 0)%Z.
Proof. reflexivity. Qed.

(** ** Complex arithmetic *)

Lemma C_eq (a b : C) : Re a = Re b -> Im a = Im b -> a = b.
Proof. destruct a, b; simpl; intros -> ->; reflexivity. Qed.

Lemma Cmul_inv_div (a b : C) : Cmul a (Cinv b) = Cdiv a b.
Proof. apply C_eq; simpl; unfold Rdiv; ring. Qed.

Lemma Im_nonzero (a : C) : Im a <> 0 -> a <> C0.
Proof. intros H E; apply H; rewrite E; reflexivity. Qed.

Lemma Cexp_i_neg (x : R) : Cexp_i (- x) = mkC (cos x) (- sin x).
Proof. unfold Cexp_i; rewrite cos_neg, sin_neg; reflexivity. Qed.

(** ** The dispersion *)

Lemma dot_cons (a : R) (K : list R) (d : Z) (D : list Z) :
  dot (a :: K) (d :: D) = a * IZR d + dot K D.
Proof. reflexivity. Qed.

Lemma dot_nil_r (K : list R) : dot K [] = 0.
Proof. destruct K; reflexivity. Qed.

Lemma dot_nil_l (D : list Z) : dot [] D = 0.
Proof. reflexivity. Qed.

Lemma path_point_single (K : list R) : path_point K K 1 0 = K.
Proof.
  unfold path_point.
  induction K as [|a K IH]; [reflexivity|].
  cbn [combine map fst snd]. rewrite IH. f_equal. simpl. field.
Qed.

(** the single path point of [eps] is the rescaled momentum itself *)
Lemma eps_unfold (B : BravaisLattice) (T : TightBinding) (k : list R) :
  eps B T k =
  Re (fourier_hop T (map (fun i => nth i k 0 * 1 / (2 * PI)) (seq 0 (dim B)))).
Proof.
  unfold eps, energies_on_bz_path. simpl.
  rewrite path_point_single. reflexivity.
Qed.

(** rescaling by 1/(2 pi) in [eps] cancels the 2 pi of the library's phase *)
Lemma dot_rescaled (k : list R) (d : list Z) (js : list nat) :
  2 * PI * dot (map (fun i => nth i k 0 * 1 / (2 * PI)) js) d =
  dot (map (fun i => nth i k 0) js) d.
Proof.
  revert d. induction js as [|i js IH]; intros d.
  - simpl. rewrite !dot_nil_l. ring.
  - destruct d as [|z d]; simpl map.
    + rewrite !dot_nil_r. ring.
    + rewrite !dot_cons, <- IH. field. apply PI_neq0.
Qed.

Lemma fourier_hop_rescaled (T : TightBinding) (k : list R) (js : list nat) :
  fourier_hop T (map (fun i => nth i k 0 * 1 / (2 * PI)) js) =
  dispersion_sum T (map (fun i => nth i k 0) js).
Proof.
  unfold fourier_hop, dispersion_sum. f_equal.
  apply map_ext. intros e. rewrite dot_rescaled. reflexivity.
Qed.

Lemma dot_2 (k : list R) (a b : Z) :
  dot k [a; b] = nth 0 k 0 * IZR a + nth 1 k 0 * IZR b.
Proof.
  destruct k as [|x [|y [|z r]]]; unfold dot;
    cbn [combine map fold_right fst snd nth]; ring.
Qed.

(** the sum over the four nearest-neighbour displacements *)
Lemma dispersion_sum_TB (t : R) (k : list R) :
  dispersion_sum (TB t) k = RtoC (2 * t * (cos (nth 0 k 0) + cos (nth 1 k 0))).
Proof.
  unfold dispersion_sum, TB, hop, amplitude. simpl.
  rewrite !dot_2.
  set (kx := nth 0 k 0). set (ky := nth 1 k 0).
  replace (kx * IZR 1 + ky * IZR 0) with kx by (simpl; ring).
  replace (kx * IZR (-1) + ky * IZR 0) with (- kx) by (simpl; ring).
  replace (kx * IZR 0 + ky * IZR 1) with ky by (simpl; ring).
  replace (kx * IZR 0 + ky * IZR (-1)) with (- ky) by (simpl; ring).
  rewrite !Cexp_i_neg. unfold Cexp_i.
  apply C_eq; simpl; ring.
Qed.

Lemma eps_TB (t : R) (k : list R) :
  eps BL (TB t) k = 2 * t * (cos (nth 0 k 0) + cos (nth 1 k 0)).
Proof.
  rewrite eps_unfold, fourier_hop_rescaled.
  change (map (fun i => nth i k 0) (seq 0 (dim BL))) with [nth 0 k 0; nth 1 k 0].
  rewrite dispersion_sum_TB. reflexivity.
Qed.

Example eps_Gamma (t : R) : eps BL (TB t) [0; 0; 0] = 4 * t.
Proof. rewrite eps_TB. cbn [nth]. rewrite cos_0. ring. Qed.

Example eps_M (t : R) : eps BL (TB t) [PI; PI; 0] = - 4 * t.
Proof. rewrite eps_TB. cbn [nth]. rewrite cos_PI. ring. Qed.

(** C6: for every momentum vector [k], [eps] returns the band energy
    sum_d t_d exp(i k.d) over the displacement vectors d of the hopping
    table (its real part, the array of energies being real, for any table;
    the sum itself for the notebook's table), and for the nearest-neighbour
    table of the notebook this is 2 t (cos kx + cos ky). *)
Theorem eps_is_dispersion (t : R) (k : list R) :
  (forall (B : BravaisLattice) (T : TightBinding),
      eps B T k = Re (dispersion_sum T (map (fun i => nth i k 0) (seq 0 (dim B))))) /\
  RtoC (eps BL (TB t) k) = dispersion_sum (TB t) k /\
  eps BL (TB t) k = 2 * t * (cos (nth 0 k 0) + cos (nth 1 k 0)).
Proof.
  split; [|split].
  - intros B T. rewrite eps_unfold, fourier_hop_rescaled. reflexivity.
  - rewrite eps_TB, dispersion_sum_TB. reflexivity.
  - apply eps_TB.
Qed.

(** ** Containers filled by a loop over their mesh *)

Section FillFacts.

Context {M : Type} `{Mesh M}.

Variable f : index M -> C.

Let step : Gf M -> index M -> Gf M := fun G p => setitem G p (f p).

Lemma mesh_fold_setitem (l : list (index M)) (g : Gf M) :
  mesh (fold_left step l g) = mesh g.
Proof.
  revert g. induction l as [|a l IH]; intros g; simpl; [reflexivity|].
  rewrite IH. reflexivity.
Qed.

Lemma data_fold_setitem_notin (l : list (index M)) (g : Gf M) (p : index M) :
  ~ In p l -> data (fold_left step l g) p = data g p.
Proof.
  revert g. induction l as [|a l IH]; intros g Hn; simpl; [reflexivity|].
  rewrite IH by (intros Hin; apply Hn; right; exact Hin).
  unfold step, setitem; simpl.
  destruct (index_eq_dec p a) as [->|]; [|reflexivity].
  exfalso; apply Hn; left; reflexivity.
Qed.

Lemma data_fold_setitem_in (l : list (index M)) (g : Gf M) (p : index M) :
  In p l -> data (fold_left step l g) p = f p.
Proof.
  revert g. induction l as [|a l IH]; intros g Hin; simpl; [destruct Hin|].
  destruct (in_dec index_eq_dec p l) as [Hl|Hl].
  - apply IH, Hl.
  - destruct Hin as [->|Hin]; [|contradiction].
    rewrite data_fold_setitem_notin by exact Hl.
    unfold step, setitem; simpl.
    destruct (index_eq_dec p p); [reflexivity|congruence].
Qed.

Lemma mesh_fill (g : Gf M) : mesh (fill g f) = mesh g.
Proof. apply mesh_fold_setitem. Qed.

Lemma data_fill (g : Gf M) (p : index M) :
  In p (points (mesh g)) -> data (fill g f) p = f p.
Proof. apply data_fold_setitem_in. Qed.

Lemma data_fill_outside (g : Gf M) (p : index M) :
  ~ In p (points (mesh g)) -> data (fill g f) p = data g p.
Proof. apply data_fold_setitem_notin. Qed.

End FillFacts.

(** ** Mesh points *)

Lemma In_Z_range (first : Z) (len : nat) (z : Z) :
  In z (Z_range first len) <-> (first <= z < first + Z.of_nat len)%Z.
Proof.
  unfold Z_range. rewrite in_map_iff. split.
  - intros [j [<- Hj]]. apply in_seq in Hj. lia.
  - intros Hz. exists (Z.to_nat (z - first)). split; [lia|].
    apply in_seq. lia.
Qed.

Lemma In_grid (n : nat) (p : Z * Z) :
  In p (grid n) <->
  (0 <= fst p < Z.of_nat n)%Z /\ (0 <= snd p < Z.of_nat n)%Z.
Proof.
  destruct p as [i j]. unfold grid. rewrite in_prod_iff, !In_Z_range.
  simpl. lia.
Qed.

(** ** The non-interacting Green's function *)

Lemma mesh_G0 (beta mu t : R) (n_k n_iw : nat) :
  mesh (G0 beta mu t n_k n_iw) = k_iw_mesh beta n_k n_iw.
Proof. unfold G0. rewrite mesh_fill. reflexivity. Qed.

Lemma data_G0 (beta mu t : R) (n_k n_iw : nat)
    (p : index (MeshBrillouinZone * MeshImFreq)) :
  In p (points (k_iw_mesh beta n_k n_iw)) ->
  data (G0 beta mu t n_k n_iw) p = (C1 / G0_denominator beta mu t n_k n_iw p)%C.
Proof. intros Hp. unfold G0. rewrite data_fill by exact Hp. reflexivity. Qed.

(** C3: at every point (k, i omega) of the momentum x fermionic frequency
    product mesh the constructed G0 holds 1 / (i omega - eps(k) + mu). *)
Theorem G0_value (beta mu t : R) (n_k n_iw : nat) (k : Z * Z) (iw : Z) :
  In (k, iw) (points (k_iw_mesh beta n_k n_iw)) ->
  data (G0 beta mu t n_k n_iw) (k, iw) =
  (C1 / (iw_value (iw_mesh beta n_iw) iw
         - RtoC (eps BL (TB t) (k_value (k_mesh n_k) k))
         + RtoC mu))%C.
Proof. intros Hp. rewrite data_G0 by exact Hp. reflexivity. Qed.

Lemma G0_value_witness :
  In ((1, 0)%Z, (-1)%Z) (points (k_iw_mesh 4 2 1)) /\
  data (G0 4 0 (-1) 2 1) ((1, 0)%Z, (-1)%Z) =
  (C1 / (iw_value (iw_mesh 4 1) (-1)
         - RtoC (eps BL (TB (-1)) (k_value (k_mesh 2) (1, 0)%Z))
         + RtoC 0))%C.
Proof.
  assert (Hin : In ((1, 0)%Z, (-1)%Z) (points (k_iw_mesh 4 2 1))).
  { simpl. auto 10. }
  split; [exact Hin | exact (G0_value 4 0 (-1) 2 1 (1, 0)%Z (-1)%Z Hin)].
Defined.

Lemma Im_iw_value (m : MeshImFreq) (n : Z) :
  Im (iw_value m n) =
  PI * IZR (2 * n + match iw_statistic m with Fermion => 1 | Boson => 0 end)
  / iw_beta m.
Proof. unfold iw_value, Ci, RtoC, Cmul. cbn [Re Im]. ring. Qed.

Lemma Im_G0_denominator (beta mu t : R) (n_k n_iw : nat)
    (p : index (MeshBrillouinZone * MeshImFreq)) :
  Im (G0_denominator beta mu t n_k n_iw p) = PI * IZR (2 * snd p + 1) / beta.
Proof.
  unfold G0_denominator, Cadd, Csub. cbn [Re Im].
  rewrite Im_iw_value. unfold RtoC. cbn [Re Im iw_mesh iw_statistic iw_beta]. ring.
Qed.

Lemma odd_matsubara_nonzero (beta : R) (n : Z) :
  0 < beta -> PI * IZR (2 * n + 1) / beta <> 0.
Proof.
  intros Hb. unfold Rdiv.
  apply Rmult_integral_contrapositive; split.
  - apply Rmult_integral_contrapositive; split; [apply PI_neq0|].
    apply not_0_IZR. lia.
  - apply Rinv_neq_0_compat. lra.
Qed.

Lemma Cnorm2_pos (a : C) : Im a <> 0 -> 0 < Cnorm2 a.
Proof. intros H. unfold Cnorm2. nra. Qed.

(** C10: for beta > 0 the denominator i omega - eps(k) + mu of the G0
    construction is nonzero at every point of the momentum x fermionic
    frequency mesh: its imaginary part is the odd Matsubara frequency
    (2n+1) pi / beta, the band energy and mu being real.  So the real divisor
    of the complex division is positive. *)
Theorem G0_denominator_nonzero (beta mu t : R) (n_k n_iw : nat)
    (p : index (MeshBrillouinZone * MeshImFreq)) :
  0 < beta ->
  In p (points (k_iw_mesh beta n_k n_iw)) ->
  Im (G0_denominator beta mu t n_k n_iw p) = PI * IZR (2 * snd p + 1) / beta /\
  G0_denominator beta mu t n_k n_iw p <> C0 /\
  0 < Cnorm2 (G0_denominator beta mu t n_k n_iw p).
Proof.
  intros Hb _.
  assert (Hi : Im (G0_denominator beta mu t n_k n_iw p) <> 0).
  { rewrite Im_G0_denominator. apply odd_matsubara_nonzero, Hb. }
  split; [apply Im_G0_denominator|].
  split; [apply Im_nonzero, Hi | apply Cnorm2_pos, Hi].
Qed.

Lemma G0_denominator_nonzero_witness :
  G0_denominator 4 0 (-1) 2 1 ((1, 0)%Z, (-1)%Z) <> C0.
Proof.
  refine (proj1 (proj2 (G0_denominator_nonzero 4 0 (-1) 2 1 ((1, 0)%Z, (-1)%Z) _ _))).
  - lra.
  - simpl. auto 10.
Defined.

(** ** RPA *)

(** C4: at every point of the mesh and for every U the RPA container holds
    2 chi0 / (1 - U chi0), obtained from the pointwise product with the
    pointwise inverse; the mesh is that of chi0. *)
Theorem chi_RPA_value (U : R) (chi0 : Gf (MeshBrillouinZone * MeshImFreq))
    (p : index (MeshBrillouinZone * MeshImFreq)) :
  mesh (chi_RPA U chi0) = mesh chi0 /\
  data (chi_RPA U chi0) p =
  ((RtoC 2 * data chi0 p) / (RtoC 1 - RtoC U * data chi0 p))%C.
Proof.
  split; [reflexivity|].
  unfold chi_RPA, Gf_mul, inverse, Gf_rsub, Gf_scale. cbn [data].
  apply Cmul_inv_div.
Qed.

(** ** Inversion symmetry *)

Lemma nth_map_Ropp (k : list R) (i : nat) :
  nth i (map Ropp k) 0 = - nth i k 0.
Proof.
  rewrite <- (map_nth Ropp k 0 i). f_equal. ring.
Qed.

Lemma eps_even (t : R) (k : list R) :
  eps BL (TB t) (map Ropp k) = eps BL (TB t) k.
Proof. rewrite !eps_TB, !nth_map_Ropp, !cos_neg. reflexivity. Qed.

Lemma opp_mod_range (N i : Z) :
  (0 <= i < N)%Z -> (0 <= (- i) mod N < N)%Z.
Proof. intros Hi. apply Z.mod_pos_bound. lia. Qed.

Lemma opp_mod_cases (N i : Z) :
  (0 <= i < N)%Z ->
  (i = 0 /\ (- i) mod N = 0)%Z \/ (0 < i /\ (- i) mod N = N - i)%Z.
Proof.
  intros Hi. destruct (Z.eq_dec i 0) as [->|Hz].
  - left. split; [reflexivity|]. apply Z.mod_0_l. lia.
  - right. split; [lia|].
    rewrite <- (Z_mod_plus_full (- i) 1 N).
    rewrite Z.mod_small by lia. lia.
Qed.

Lemma cos_reflected_index (n : nat) (i : Z) :
  (0 <= i < Z.of_nat n)%Z ->
  cos (2 * PI * IZR ((- i) mod Z.of_nat n) / INR n) = cos (2 * PI * IZR i / INR n).
Proof.
  intros Hi.
  destruct (opp_mod_cases _ _ Hi) as [[-> ->]|[Hpos ->]]; [reflexivity|].
  assert (Hn : INR n <> 0).
  { apply not_0_INR. lia. }
  rewrite minus_IZR, <- INR_IZR_INZ.
  replace (2 * PI * (INR n - IZR i) / INR n)
    with (2 * PI - 2 * PI * IZR i / INR n) by (field; exact Hn).
  rewrite cos_minus, cos_2PI, sin_2PI. ring.
Qed.

Lemma eps_minus_k (t : R) (n : nat) (k : Z * Z) :
  In k (grid n) ->
  eps BL (TB t) (k_value (k_mesh n) (minus_k (k_mesh n) k)) =
  eps BL (TB t) (k_value (k_mesh n) k).
Proof.
  intros Hk. apply In_grid in Hk. destruct Hk as [Hi Hj].
  rewrite !eps_TB. unfold k_value, minus_k. cbn [nth fst snd k_n k_mesh].
  rewrite (cos_reflected_index n (fst k) Hi), (cos_reflected_index n (snd k) Hj).
  reflexivity.
Qed.

Lemma In_minus_k (n : nat) (k : Z * Z) :
  In k (grid n) -> In (minus_k (k_mesh n) k) (grid n).
Proof.
  rewrite !In_grid. intros [Hi Hj]. unfold minus_k. cbn [fst snd k_n k_mesh].
  split; apply opp_mod_range; assumption.
Qed.

(** C9: the nearest-neighbour dispersion is even, eps(-k) = eps(k) for every
    momentum k, and therefore at every point (k, i omega) of the product mesh
    G0 holds the same value at the mesh point of -k as at k (for every mu, in
    particular mu = 0). *)
Theorem G0_inversion_symmetric (beta mu t : R) (n_k n_iw : nat) :
  (forall k : list R, eps BL (TB t) (map Ropp k) = eps BL (TB t) k) /\
  (forall (k : Z * Z) (iw : Z),
      In (k, iw) (points (k_iw_mesh beta n_k n_iw)) ->
      In (minus_k (k_mesh n_k) k, iw) (points (k_iw_mesh beta n_k n_iw)) /\
      data (G0 beta mu t n_k n_iw) (minus_k (k_mesh n_k) k, iw) =
      data (G0 beta mu t n_k n_iw) (k, iw)).
Proof.
  split; [intros k; apply eps_even|].
  intros k iw Hp.
  assert (Hp' : In (minus_k (k_mesh n_k) k, iw) (points (k_iw_mesh beta n_k n_iw))).
  { cbn [points MeshProduct k_iw_mesh fst snd] in *.
    apply in_prod_iff in Hp. destruct Hp as [Hk Hw].
    apply in_prod_iff. split; [|exact Hw].
    apply In_minus_k, Hk. }
  split; [exact Hp'|].
  rewrite !data_G0 by assumption.
  unfold G0_denominator. cbn [fst snd].
  rewrite eps_minus_k; [reflexivity|].
  cbn [points MeshProduct k_iw_mesh fst snd] in Hp.
  apply in_prod_iff in Hp. apply Hp.
Qed.

Lemma G0_inversion_symmetric_witness :
  data (G0 4 0 (-1) 3 1) ((2, 1)%Z, (-1)%Z) =
  data (G0 4 0 (-1) 3 1) ((1, 2)%Z, (-1)%Z).
Proof.
  refine (proj2 (proj2 (G0_inversion_symmetric 4 0 (-1) 3 1) (1, 2)%Z (-1)%Z _)).
  simpl. auto 20.
Defined.

(** the mesh point of -k carries the momentum -k up to a reciprocal lattice
    vector *)
Lemma minus_k_value (n : nat) (i : Z) :
  (0 <= i < Z.of_nat n)%Z ->
  2 * PI * IZR ((- i) mod Z.of_nat n) / INR n = - (2 * PI * IZR i / INR n) \/
  2 * PI * IZR ((- i) mod Z.of_nat n) / INR n = - (2 * PI * IZR i / INR n) + 2 * PI.
Proof.
  intros Hi.
  assert (Hn : INR n <> 0) by (apply not_0_INR; lia).
  destruct (opp_mod_cases _ _ Hi) as [[-> ->]|[Hpos ->]].
  - left. field. exact Hn.
  - right. rewrite minus_IZR, <- INR_IZR_INZ. field. exact Hn.
Qed.

(** ** The reflected lookup *)

Lemma Int_part_IZR (z : Z) : Int_part (IZR z) = z.
Proof. symmetry. apply Int_part_spec. lra. Qed.

Lemma C_weight_right (x y : C) : (RtoC (1 - 1) * x + RtoC 1 * y)%C = y.
Proof. apply C_eq; simpl; ring. Qed.

Lemma C_weight_left (x y : C) : (RtoC (1 - 0) * x + RtoC 0 * y)%C = x.
Proof. apply C_eq; simpl; ring. Qed.

Section ReflectedTime.

Variable m : MeshImTime.
Hypothesis beta_pos : 0 < tau_beta m.
Hypothesis two_samples : (2 <= tau_n m)%nat.

Lemma tau_steps_nonzero : INR (tau_n m) - 1 <> 0.
Proof.
  apply le_INR in two_samples. simpl in two_samples. lra.
Qed.

Lemma reflected_tau_value (i : Z) :
  tau_beta m - tau_value m i = tau_value m (reflected_tau m i).
Proof.
  unfold tau_value, reflected_tau, tau_delta.
  rewrite !minus_IZR, <- INR_IZR_INZ.
  field. apply tau_steps_nonzero.
Qed.

Lemma reflected_tau_ratio (i : Z) :
  (tau_beta m - tau_value m i - 0) / tau_delta m = IZR (reflected_tau m i).
Proof.
  unfold tau_value, reflected_tau, tau_delta.
  rewrite !minus_IZR, <- INR_IZR_INZ.
  field. split; [apply tau_steps_nonzero | lra].
Qed.

(** beta - tau_i is read off the single sample n-1-i: the weight of the
    other neighbour is 0 *)
Lemma get_interpolation_data_reflected (i : Z) :
  (0 <= i < Z.of_nat (tau_n m))%Z ->
  get_interpolation_data m (tau_beta m - tau_value m i) =
  if (i =? 0)%Z then ((Z.of_nat (tau_n m) - 2)%Z, 1)
  else (reflected_tau m i, 0).
Proof.
  intros Hi. unfold get_interpolation_data.
  rewrite reflected_tau_ratio, Int_part_IZR.
  unfold reflected_tau.
  destruct (Z.eqb_spec i 0) as [->|Hnz].
  - rewrite Z.sub_0_r, Z.eqb_refl. f_equal. lia.
  - destruct (Z.eqb_spec (Z.of_nat (tau_n m) - 1 - i) (Z.of_nat (tau_n m) - 1));
      [lia|].
    f_equal. ring.
Qed.

Lemma evaluate_tau_reflected (f : Z -> C) (i : Z) :
  (0 <= i < Z.of_nat (tau_n m))%Z ->
  evaluate_tau m f (tau_beta m - tau_value m i) = f (reflected_tau m i).
Proof.
  intros Hi. unfold evaluate_tau.
  rewrite get_interpolation_data_reflected by exact Hi.
  destruct (Z.eqb_spec i 0) as [->|Hnz].
  - rewrite C_weight_right. f_equal. unfold reflected_tau. lia.
  - apply C_weight_left.
Qed.

Lemma reflected_tau_range (i : Z) :
  (0 <= i < Z.of_nat (tau_n m))%Z ->
  (0 <= reflected_tau m i < Z.of_nat (tau_n m))%Z.
Proof. clear beta_pos two_samples. unfold reflected_tau. lia. Qed.

End ReflectedTime.

Lemma index_modulo_range (m : MeshCyclicLattice) (r : Z * Z) :
  In r (grid (r_n m)) ->
  In (index_modulo m (map Z.opp (r_value r))) (grid (r_n m)).
Proof.
  rewrite !In_grid. intros [Hi Hj].
  unfold index_modulo, r_value. cbn [map nth fst snd].
  split; apply opp_mod_range; assumption.
Qed.

(** evaluation of a container at the reflected point of a mesh point *)
Lemma call_r_tau_reflected (g : chi_r_tau_type) (r : Z * Z) (i : Z) :
  0 < tau_beta (snd (mesh g)) ->
  (2 <= tau_n (snd (mesh g)))%nat ->
  (0 <= i < Z.of_nat (tau_n (snd (mesh g))))%Z ->
  call_r_tau g (map Z.opp (r_value r))
             (tau_beta (snd (mesh g)) - tau_value (snd (mesh g)) i) =
  data g (index_modulo (fst (mesh g)) (map Z.opp (r_value r)),
          reflected_tau (snd (mesh g)) i).
Proof.
  intros Hb Hn Hi. unfold call_r_tau.
  rewrite evaluate_tau_reflected by assumption. reflexivity.
Qed.

(** ** Meshes carried through the python cells *)

Lemma mesh_fold_left {M A : Type} `{Mesh M} (step : Gf M -> A -> Gf M)
    (l : list A) (g : Gf M) :
  (forall G a, mesh (step G a) = mesh G) ->
  mesh (fold_left step l g) = mesh g.
Proof.
  intros Hstep. revert g.
  induction l as [|a l IH]; intros g; simpl; [reflexivity|].
  rewrite IH. apply Hstep.
Qed.

Section CellFacts.

Variable F : FourierKernels.
Variables (beta mu t : R) (n_k n_iw : nat).

Lemma mesh_G0_r_iw :
  mesh (G0_r_iw F beta mu t n_k n_iw) = r_iw_mesh beta n_k n_iw.
Proof. unfold G0_r_iw. apply mesh_fold_left. reflexivity. Qed.

Lemma mesh_G0_r_tau :
  mesh (G0_r_tau F beta mu t n_k n_iw) = r_tau_mesh F beta n_k n_iw.
Proof. unfold G0_r_tau. apply mesh_fold_left. reflexivity. Qed.

Lemma mesh_G0_minus_r_minus_tau :
  mesh (G0_minus_r_minus_tau F beta mu t n_k n_iw) = r_tau_mesh F beta n_k n_iw.
Proof.
  unfold G0_minus_r_minus_tau. rewrite mesh_fill. apply mesh_G0_r_tau.
Qed.

Lemma mesh_chi0_r_tau :
  mesh (chi0_r_tau F beta mu t n_k n_iw) = r_tau_mesh F beta n_k n_iw.
Proof. unfold chi0_r_tau, Gf_mul. cbn [mesh]. apply mesh_G0_r_tau. Qed.

Lemma In_r_tau_mesh (r : Z * Z) (i : Z) :
  In (r, i) (points (r_tau_mesh F beta n_k n_iw)) <->
  In r (grid n_k) /\ (0 <= i < Z.of_nat (n_tau_of F n_iw))%Z.
Proof.
  cbn [points MeshProduct r_tau_mesh fst snd].
  rewrite in_prod_iff.
  cbn [points Mesh_CyclicLattice Mesh_ImTime r_mesh make_adjoint_mesh_k r_n k_mesh
       k_n tau_mesh make_adjoint_mesh_iw tau_n iw_mesh iw_n].
  rewrite In_Z_range. intuition lia.
Qed.

End CellFacts.

(** C8: for every grid point (r, tau) of the real-space x imaginary-time
    mesh (beta > 0, at least two time samples) the reflected point
    (-r, beta - tau) is a mesh sample: beta - tau is the time of the sample
    n_tau - 1 - i, -r folds back onto a lattice site of the mesh, and the
    lookup [G0_r_tau(minus_r, minus_tau)] returns the stored value of that
    sample, the neighbouring sample entering with weight 0. *)
Theorem reflected_lookup_on_mesh (F : FourierKernels) (beta mu t : R)
    (n_k n_iw : nat) (r : Z * Z) (i : Z) :
  0 < beta ->
  (2 <= n_tau_of F n_iw)%nat ->
  In (r, i) (points (r_tau_mesh F beta n_k n_iw)) ->
  let r' := index_modulo (r_mesh n_k) (map Z.opp (r_value r)) in
  let i' := reflected_tau (tau_mesh F beta n_iw) i in
  In (r', i') (points (r_tau_mesh F beta n_k n_iw)) /\
  beta - tau_value (tau_mesh F beta n_iw) i = tau_value (tau_mesh F beta n_iw) i' /\
  reflected_lookup F beta mu t n_k n_iw (r, i) =
  data (G0_r_tau F beta mu t n_k n_iw) (r', i').
Proof.
  intros Hb Hn Hp r' i'. apply In_r_tau_mesh in Hp. destruct Hp as [Hr Hi].
  split; [|split].
  - apply In_r_tau_mesh. split.
    + apply (index_modulo_range (r_mesh n_k)), Hr.
    + apply (reflected_tau_range (tau_mesh F beta n_iw)), Hi.
  - apply (reflected_tau_value (tau_mesh F beta n_iw)); assumption.
  - unfold reflected_lookup. cbn [fst snd].
    pose proof (call_r_tau_reflected (G0_r_tau F beta mu t n_k n_iw) r i) as H.
    rewrite mesh_G0_r_tau in H. apply H; assumption.
Qed.

Lemma reflected_lookup_on_mesh_witness :
  reflected_lookup sample_kernels 4 0 (-1) 3 1 ((1, 2)%Z, 2%Z) =
  data (G0_r_tau sample_kernels 4 0 (-1) 3 1) ((2, 1)%Z, 4%Z).
Proof.
  refine (proj2 (proj2
    (reflected_lookup_on_mesh sample_kernels 4 0 (-1) 3 1 (1, 2)%Z 2%Z _ _ _))).
  - lra.
  - simpl. lia.
  - simpl. auto 40.
Defined.

(** the python product at a mesh point: the sample of G0(r, tau) times the
    sample of G0 at the reflected point *)
Lemma chi0_r_tau_value (F : FourierKernels) (beta mu t : R) (n_k n_iw : nat)
    (r : Z * Z) (i : Z) :
  0 < beta ->
  (2 <= n_tau_of F n_iw)%nat ->
  In (r, i) (points (r_tau_mesh F beta n_k n_iw)) ->
  data (chi0_r_tau F beta mu t n_k n_iw) (r, i) =
  (data (G0_r_tau F beta mu t n_k n_iw) (r, i)
   * data (G0_r_tau F beta mu t n_k n_iw)
       (index_modulo (r_mesh n_k) (map Z.opp (r_value r)),
        reflected_tau (tau_mesh F beta n_iw) i))%C.
Proof.
  intros Hb Hn Hp. unfold chi0_r_tau, Gf_mul. cbn [data]. f_equal.
  unfold G0_minus_r_minus_tau.
  rewrite data_fill
    by (cbn [mesh Gf_new]; rewrite mesh_G0_r_tau; exact Hp).
  unfold reflected_lookup. cbn [fst snd].
  pose proof (call_r_tau_reflected (G0_r_tau F beta mu t n_k n_iw) r i) as H.
  rewrite mesh_G0_r_tau in H. apply In_r_tau_mesh in Hp.
  apply H; [exact Hb | exact Hn | apply Hp].
Qed.

(** ** Statistics of the time mesh of chi0 *)

(** in the compiled [bubble] the product is stored on a new time mesh:
    bosonic, with the beta and the number of samples of the time mesh of
    the transformed G0; for a fermionic G0 it differs from that mesh, and
    the returned container lives on bosonic Matsubara frequencies *)
Lemma bubble_time_mesh_bosonic (F : FourierKernels) (g0 : g_k_iw_type) :
  let tau_mesh := snd (mesh (make_gf_from_fourier_01_k_iw F g0)) in
  snd (mesh (bubble_chi0 F g0)) =
    {| tau_beta := tau_beta tau_mesh; tau_statistic := Boson;
       tau_n := tau_n tau_mesh |} /\
  (iw_statistic (snd (mesh g0)) = Fermion ->
   snd (mesh (bubble_chi0 F g0)) <> tau_mesh) /\
  iw_statistic
    (snd (mesh (make_gf_from_fourier_01_r_tau F (bubble_chi0 F g0)))) = Boson.
Proof.
  intros tau_mesh.
  assert (Hm : snd (mesh (bubble_chi0 F g0)) =
    {| tau_beta := tau_beta tau_mesh; tau_statistic := Boson;
       tau_n := tau_n tau_mesh |}).
  { unfold bubble_chi0. cbn [mesh make_gf_from_fourier_01_k_iw].
    rewrite mesh_fill. reflexivity. }
  split; [exact Hm|]. split.
  - intros Hf E. rewrite Hm in E.
    apply (f_equal tau_statistic) in E.
    cbn [tau_statistic] in E. subst tau_mesh.
    cbn [mesh make_gf_from_fourier_01_k_iw snd make_adjoint_mesh_iw tau_statistic] in E.
    rewrite Hf in E. discriminate.
  - cbn [mesh make_gf_from_fourier_01_r_tau snd make_adjoint_mesh_tau iw_statistic].
    rewrite Hm. reflexivity.
Qed.

(** the value stored by the lazy assignment of [bubble] at a mesh point:
    the sample of the transformed G0 at the reflected point times the sample
    at the point itself *)
Lemma bubble_chi0_value (F : FourierKernels) (g0 : g_k_iw_type) (r : Z * Z) (i : Z) :
  let g0_r_tau := make_gf_from_fourier_01_k_iw F g0 in
  0 < iw_beta (snd (mesh g0)) ->
  (2 <= n_tau_of F (iw_n (snd (mesh g0))))%nat ->
  In (r, i) (points (mesh (bubble_chi0 F g0))) ->
  data (bubble_chi0 F g0) (r, i) =
  (data g0_r_tau (index_modulo (fst (mesh g0_r_tau)) (map Z.opp (r_value r)),
                  reflected_tau (snd (mesh g0_r_tau)) i)
   * data g0_r_tau (r, i))%C.
Proof.
  intros g0_r_tau Hb Hn Hp.
  unfold bubble_chi0 in *. fold g0_r_tau in Hp |- *.
  cbn [mesh make_gf_from_fourier_01_k_iw g0_r_tau] in Hp |- *.
  rewrite mesh_fill in Hp.
  rewrite data_fill by exact Hp.
  cbn [fst snd]. f_equal.
  cbn [points MeshProduct Gf_new mesh fst snd] in Hp.
  apply in_prod_iff in Hp. destruct Hp as [_ Hi].
  apply In_Z_range in Hi. cbn [tau_n make_adjoint_mesh_iw] in Hi.
  pose proof (call_r_tau_reflected g0_r_tau r i) as H.
  cbn [mesh make_gf_from_fourier_01_k_iw g0_r_tau snd fst make_adjoint_mesh_iw
       tau_beta tau_n] in H.
  apply H; [exact Hb | exact Hn | lia].
Qed.

(** C2 (python cells): the product [chi0_r_tau = G0_r_tau * G0_minus_r_minus_tau]
    stays on the time mesh of G0, whose statistics is fermionic; the slice
    handed to the transform back to frequency carries that mesh, so the
    transformed row is tagged fermionic although it is stored in a container
    built on the bosonic frequency mesh.  No bosonic time mesh is built. *)
Theorem python_chi0_time_mesh_fermionic (F : FourierKernels) (beta mu t : R)
    (n_k n_iw : nat) (r : Z * Z) :
  snd (mesh (chi0_r_tau F beta mu t n_k n_iw)) =
    snd (mesh (G0_r_tau F beta mu t n_k n_iw)) /\
  mesh (slice_row (chi0_r_tau F beta mu t n_k n_iw) r) = tau_mesh F beta n_iw /\
  tau_statistic (mesh (slice_row (chi0_r_tau F beta mu t n_k n_iw) r)) = Fermion /\
  iw_statistic (mesh (chi0_r_iW_row F beta mu t n_k n_iw r)) = Fermion /\
  iw_statistic (snd (mesh (chi0_r_iW_new beta n_k n_iw))) = Boson.
Proof.
  assert (Hs : mesh (slice_row (chi0_r_tau F beta mu t n_k n_iw) r) =
               tau_mesh F beta n_iw).
  { unfold slice_row. cbn [mesh]. rewrite mesh_chi0_r_tau. reflexivity. }
  split; [|split; [|split; [|split]]].
  - rewrite mesh_chi0_r_tau, mesh_G0_r_tau. reflexivity.
  - exact Hs.
  - rewrite Hs. reflexivity.
  - unfold chi0_r_iW_row, make_gf_from_fourier_tau. cbn [mesh].
    rewrite Hs. reflexivity.
  - reflexivity.
Qed.

(** * Further properties of the cells *)

(** ** Slice assignments in a loop *)

Section AssignFacts.

Context {M1 M2 : Type} `{Mesh M1} `{Mesh M2}.

Lemma data_fold_assign_col_notin (h : index M2 -> Gf M1) (l : list (index M2))
    (g : Gf (M1 * M2)) (i : index M1) (j : index M2) :
  ~ In j l ->
  data (fold_left (fun G c => assign_col G c (h c)) l g) (i, j) = data g (i, j).
Proof.
  revert g. induction l as [|a l IH]; intros g Hn; simpl; [reflexivity|].
  rewrite IH by (intros Hin; apply Hn; right; exact Hin).
  unfold assign_col; cbn [data snd fst].
  destruct (index_eq_dec j a) as [->|]; [|reflexivity].
  exfalso; apply Hn; left; reflexivity.
Qed.

Lemma data_fold_assign_col_in (h : index M2 -> Gf M1) (l : list (index M2))
    (g : Gf (M1 * M2)) (i : index M1) (j : index M2) :
  In j l ->
  data (fold_left (fun G c => assign_col G c (h c)) l g) (i, j) = data (h j) i.
Proof.
  revert g. induction l as [|a l IH]; intros g Hin; simpl; [destruct Hin|].
  destruct (in_dec index_eq_dec j l) as [Hl|Hl].
  - apply IH, Hl.
  - destruct Hin as [->|Hin]; [|contradiction].
    rewrite data_fold_assign_col_notin by exact Hl.
    unfold assign_col; cbn [data snd fst].
    destruct (index_eq_dec j j); [reflexivity|congruence].
Qed.

Lemma data_fold_assign_row_notin (h : index M1 -> Gf M2) (l : list (index M1))
    (g : Gf (M1 * M2)) (i : index M1) (j : index M2) :
  ~ In i l ->
  data (fold_left (fun G c => assign_row G c (h c)) l g) (i, j) = data g (i, j).
Proof.
  revert g. induction l as [|a l IH]; intros g Hn; simpl; [reflexivity|].
  rewrite IH by (intros Hin; apply Hn; right; exact Hin).
  unfold assign_row; cbn [data snd fst].
  destruct (index_eq_dec i a) as [->|]; [|reflexivity].
  exfalso; apply Hn; left; reflexivity.
Qed.

Lemma data_fold_assign_row_in (h : index M1 -> Gf M2) (l : list (index M1))
    (g : Gf (M1 * M2)) (i : index M1) (j : index M2) :
  In i l ->
  data (fold_left (fun G c => assign_row G c (h c)) l g) (i, j) = data (h i) j.
Proof.
  revert g. induction l as [|a l IH]; intros g Hin; simpl; [destruct Hin|].
  destruct (in_dec index_eq_dec i l) as [Hl|Hl].
  - apply IH, Hl.
  - destruct Hin as [->|Hin]; [|contradiction].
    rewrite data_fold_assign_row_notin by exact Hl.
    unfold assign_row; cbn [data snd fst].
    destruct (index_eq_dec i i); [reflexivity|congruence].
Qed.

End AssignFacts.

(** ** The two transform loops of the python route *)

Section TransformLoops.

Variable F : FourierKernels.
Variables (beta mu t : R) (n_k n_iw : nat).

Lemma data_G0_r_iw (r : Z * Z) (iw : Z) :
  In iw (points (iw_mesh beta n_iw)) ->
  data (G0_r_iw F beta mu t n_k n_iw) (r, iw) =
  k_to_r F (k_mesh n_k) (fun k => data (G0 beta mu t n_k n_iw) (k, iw)) r.
Proof.
  intros Hw. unfold G0_r_iw.
  rewrite (data_fold_assign_col_in
             (fun c => make_gf_from_fourier_k F (slice_col (G0 beta mu t n_k n_iw) c)))
    by exact Hw.
  unfold make_gf_from_fourier_k, slice_col. cbn [data mesh].
  rewrite mesh_G0. reflexivity.
Qed.

Lemma data_G0_r_tau (r : Z * Z) (i : Z) :
  In r (points (r_mesh n_k)) ->
  data (G0_r_tau F beta mu t n_k n_iw) (r, i) =
  iw_to_tau F (iw_mesh beta n_iw)
    (fun n => data (G0_r_iw F beta mu t n_k n_iw) (r, n)) i.
Proof.
  intros Hr. unfold G0_r_tau.
  rewrite (data_fold_assign_row_in
             (fun c => make_gf_from_fourier_iw F
                         (slice_row (G0_r_iw F beta mu t n_k n_iw) c)))
    by exact Hr.
  unfold make_gf_from_fourier_iw, slice_row. cbn [data mesh].
  rewrite mesh_G0_r_iw. reflexivity.
Qed.

Lemma data_G0_r_tau_compiled (r : Z * Z) (i : Z) :
  reads_mesh_only (M := MeshImFreq) (iw_to_tau F) ->
  In r (points (r_mesh n_k)) ->
  data (G0_r_tau F beta mu t n_k n_iw) (r, i) =
  data (make_gf_from_fourier_01_k_iw F (G0 beta mu t n_k n_iw)) (r, i).
Proof.
  intros HK Hr. rewrite data_G0_r_tau by exact Hr.
  unfold make_gf_from_fourier_01_k_iw. cbn [data fst snd].
  rewrite mesh_G0. cbn [k_iw_mesh fst snd].
  apply HK. intros n Hn. apply data_G0_r_iw, Hn.
Qed.

End TransformLoops.

Lemma sum_kernels_read_mesh_only :
  reads_mesh_only (M := MeshImFreq) (iw_to_tau sum_kernels).
Proof.
  intros m f g Hfg j. cbn [iw_to_tau sum_kernels]. f_equal.
  apply map_ext_in. exact Hfg.
Qed.

(** X1: each pass of the two transform loops stores the transform of the
    matching slice and leaves the slices of the other passes alone: after the
    first loop the column [iw] of [G0_r_iw] is the momentum transform of the
    column [iw] of [G0], after the second loop the row [r] of [G0_r_tau] is
    the frequency transform of the row [r] of [G0_r_iw]. *)
Theorem transform_loops_slices (F : FourierKernels) (beta mu t : R)
    (n_k n_iw : nat) (r : Z * Z) (iw i : Z) :
  In r (points (r_mesh n_k)) ->
  In iw (points (iw_mesh beta n_iw)) ->
  data (G0_r_iw F beta mu t n_k n_iw) (r, iw) =
    k_to_r F (k_mesh n_k) (fun k => data (G0 beta mu t n_k n_iw) (k, iw)) r /\
  data (G0_r_tau F beta mu t n_k n_iw) (r, i) =
    iw_to_tau F (iw_mesh beta n_iw)
      (fun n => data (G0_r_iw F beta mu t n_k n_iw) (r, n)) i.
Proof.
  intros Hr Hw. split; [apply data_G0_r_iw, Hw | apply data_G0_r_tau, Hr].
Qed.

Lemma transform_loops_slices_witness :
  data (G0_r_iw sample_kernels 4 0 (-1) 3 1) ((1, 2)%Z, (-1)%Z) =
  k_to_r sample_kernels (k_mesh 3)
    (fun k => data (G0 4 0 (-1) 3 1) (k, (-1)%Z)) (1, 2)%Z.
Proof.
  refine (proj1 (transform_loops_slices sample_kernels 4 0 (-1) 3 1
                   (1, 2)%Z (-1)%Z 0%Z _ _)).
  - simpl. auto 20.
  - simpl. auto.
Defined.

(** X2: the two loops of the python route (momentum axis for each frequency,
    then frequency axis for each site) produce, at every point of the
    real-space x imaginary-time mesh, the value of the two-axis transform
    [make_gf_from_fourier<0,1>(G0)] of the compiled cell, on the same mesh,
    provided the frequency kernel reads the stored samples only. *)
Theorem python_loops_agree_with_compiled_transform (F : FourierKernels)
    (beta mu t : R) (n_k n_iw : nat) (r : Z * Z) (i : Z) :
  reads_mesh_only (M := MeshImFreq) (iw_to_tau F) ->
  In (r, i) (points (r_tau_mesh F beta n_k n_iw)) ->
  mesh (G0_r_tau F beta mu t n_k n_iw) =
    mesh (make_gf_from_fourier_01_k_iw F (G0 beta mu t n_k n_iw)) /\
  data (G0_r_tau F beta mu t n_k n_iw) (r, i) =
    data (make_gf_from_fourier_01_k_iw F (G0 beta mu t n_k n_iw)) (r, i).
Proof.
  intros HK Hp. split.
  - rewrite mesh_G0_r_tau. unfold make_gf_from_fourier_01_k_iw. cbn [mesh].
    rewrite mesh_G0. reflexivity.
  - apply data_G0_r_tau_compiled; [exact HK|].
    apply In_r_tau_mesh in Hp. apply Hp.
Qed.

Lemma python_loops_agree_with_compiled_transform_witness :
  data (G0_r_tau sum_kernels 4 0 (-1) 3 1) ((1, 2)%Z, 2%Z) =
  data (make_gf_from_fourier_01_k_iw sum_kernels (G0 4 0 (-1) 3 1)) ((1, 2)%Z, 2%Z).
Proof.
  refine (proj2 (python_loops_agree_with_compiled_transform sum_kernels
                   4 0 (-1) 3 1 (1, 2)%Z 2%Z _ _)).
  - exact sum_kernels_read_mesh_only.
  - simpl. auto 40.
Defined.

(** ** The reflection (r, tau) -> (-r, beta - tau) on the mesh *)

Lemma Cmul_comm (a b : C) : (a * b)%C = (b * a)%C.
Proof. apply C_eq; simpl; ring. Qed.

Lemma opp_mod_involutive (N i : Z) :
  (0 <= i < N)%Z -> ((- ((- i) mod N)) mod N = i)%Z.
Proof.
  intros Hi.
  destruct (opp_mod_cases _ _ Hi) as [[-> ->]|[Hpos ->]].
  - apply Z.mod_0_l. lia.
  - destruct (opp_mod_cases N (N - i)%Z) as [[Hz _]|[_ ->]]; lia.
Qed.

Lemma index_modulo_involutive (m : MeshCyclicLattice) (r : Z * Z) :
  In r (grid (r_n m)) ->
  index_modulo m (map Z.opp (r_value (index_modulo m (map Z.opp (r_value r))))) = r.
Proof.
  rewrite In_grid. intros [Hi Hj]. destruct r as [i j].
  unfold index_modulo, r_value. cbn [map nth fst snd] in *.
  rewrite !opp_mod_involutive by assumption. reflexivity.
Qed.

Lemma reflected_tau_involutive (m : MeshImTime) (i : Z) :
  reflected_tau m (reflected_tau m i) = i.
Proof. unfold reflected_tau. lia. Qed.

Lemma mesh_bubble_chi0 (F : FourierKernels) (g0 : g_k_iw_type) :
  mesh (bubble_chi0 F g0) =
  (make_adjoint_mesh_k (fst (mesh g0)),
   {| tau_beta := iw_beta (snd (mesh g0)); tau_statistic := Boson;
      tau_n := n_tau_of F (iw_n (snd (mesh g0))) |}).
Proof.
  unfold bubble_chi0. cbn [mesh make_gf_from_fourier_01_k_iw].
  rewrite mesh_fill. reflexivity.
Qed.

Lemma In_bubble_chi0_mesh (F : FourierKernels) (g0 : g_k_iw_type) (r : Z * Z) (i : Z) :
  In (r, i) (points (mesh (bubble_chi0 F g0))) <->
  In r (grid (k_n (fst (mesh g0)))) /\
  (0 <= i < Z.of_nat (n_tau_of F (iw_n (snd (mesh g0)))))%Z.
Proof.
  rewrite mesh_bubble_chi0.
  cbn [points MeshProduct fst snd]. rewrite in_prod_iff.
  cbn [points Mesh_CyclicLattice Mesh_ImTime make_adjoint_mesh_k r_n tau_n].
  rewrite In_Z_range. intuition lia.
Qed.

(** X3: the product formula chi0(r, tau) = G0(r, tau) G0(-r, beta - tau), on
    both routes: at every point of the real-space x imaginary-time mesh
    (beta > 0, at least two time samples) the python product [chi0_r_tau]
    and the local [chi0] of the compiled [bubble] hold the stored sample of
    the transformed G0 at the point times its stored sample at the reflected
    mesh point. *)
Theorem chi0_product_formula (F : FourierKernels) (beta mu t : R)
    (n_k n_iw : nat) (g0 : g_k_iw_type) (r : Z * Z) (i : Z) :
  0 < beta ->
  (2 <= n_tau_of F n_iw)%nat ->
  In (r, i) (points (r_tau_mesh F beta n_k n_iw)) ->
  mesh g0 = k_iw_mesh beta n_k n_iw ->
  let p' := reflect_r_tau (r_tau_mesh F beta n_k n_iw) (r, i) in
  data (chi0_r_tau F beta mu t n_k n_iw) (r, i) =
    (data (G0_r_tau F beta mu t n_k n_iw) (r, i)
     * data (G0_r_tau F beta mu t n_k n_iw) p')%C /\
  data (bubble_chi0 F g0) (r, i) =
    (data (make_gf_from_fourier_01_k_iw F g0) p'
     * data (make_gf_from_fourier_01_k_iw F g0) (r, i))%C.
Proof.
  intros Hb Hn Hp Hm p'. split.
  - apply chi0_r_tau_value; assumption.
  - pose proof (bubble_chi0_value F g0 r i) as H.
    cbn zeta in H. rewrite Hm in H.
    assert (Hg : mesh (make_gf_from_fourier_01_k_iw F g0) =
                 r_tau_mesh F beta n_k n_iw).
    { unfold make_gf_from_fourier_01_k_iw. cbn [mesh]. rewrite Hm. reflexivity. }
    rewrite Hg in H.
    apply H; [exact Hb | exact Hn |].
    apply In_bubble_chi0_mesh. rewrite Hm.
    apply In_r_tau_mesh in Hp. exact Hp.
Qed.

Lemma chi0_product_formula_witness :
  data (chi0_r_tau sample_kernels 4 0 (-1) 3 1) ((1, 2)%Z, 2%Z) =
  (data (G0_r_tau sample_kernels 4 0 (-1) 3 1) ((1, 2)%Z, 2%Z)
   * data (G0_r_tau sample_kernels 4 0 (-1) 3 1) ((2, 1)%Z, 4%Z))%C.
Proof.
  refine (proj1 (chi0_product_formula sample_kernels 4 0 (-1) 3 1
                   (G0 4 0 (-1) 3 1) (1, 2)%Z 2%Z _ _ _ _)).
  - lra.
  - simpl. lia.
  - simpl. auto 40.
  - apply mesh_G0.
Defined.

Lemma In_reflect_r_tau (F : FourierKernels) (beta : R) (n_k n_iw : nat)
    (p : (Z * Z) * Z) :
  In p (points (r_tau_mesh F beta n_k n_iw)) ->
  In (reflect_r_tau (r_tau_mesh F beta n_k n_iw) p)
     (points (r_tau_mesh F beta n_k n_iw)).
Proof.
  destruct p as [r i]. intros Hp. apply In_r_tau_mesh in Hp.
  destruct Hp as [Hr Hi]. unfold reflect_r_tau. cbn [fst snd r_tau_mesh].
  apply In_r_tau_mesh. split.
  - apply (index_modulo_range (r_mesh n_k)), Hr.
  - apply (reflected_tau_range (tau_mesh F beta n_iw)), Hi.
Qed.

Lemma reflect_r_tau_involutive (F : FourierKernels) (beta : R) (n_k n_iw : nat)
    (p : (Z * Z) * Z) :
  In p (points (r_tau_mesh F beta n_k n_iw)) ->
  reflect_r_tau (r_tau_mesh F beta n_k n_iw)
    (reflect_r_tau (r_tau_mesh F beta n_k n_iw) p) = p.
Proof.
  destruct p as [r i]. intros Hp. apply In_r_tau_mesh in Hp.
  destruct Hp as [Hr Hi]. unfold reflect_r_tau. cbn [fst snd r_tau_mesh].
  rewrite (index_modulo_involutive (r_mesh n_k)) by exact Hr.
  rewrite reflected_tau_involutive. reflexivity.
Qed.

(** X4: fed with the same G0, the python cells and the compiled [bubble]
    store the same values of chi0(r, tau) at every point of the real-space x
    imaginary-time mesh (beta > 0, at least two time samples, a frequency
    kernel that reads the stored samples only); the two containers share
    the lattice mesh and the beta and size of the time mesh, and differ in
    the statistics of their time mesh only, fermionic in the python route and
    bosonic in [bubble]. *)
Theorem python_chi0_agrees_with_compiled (F : FourierKernels) (beta mu t : R)
    (n_k n_iw : nat) (r : Z * Z) (i : Z) :
  reads_mesh_only (M := MeshImFreq) (iw_to_tau F) ->
  0 < beta ->
  (2 <= n_tau_of F n_iw)%nat ->
  In (r, i) (points (r_tau_mesh F beta n_k n_iw)) ->
  data (chi0_r_tau F beta mu t n_k n_iw) (r, i) =
    data (bubble_chi0 F (G0 beta mu t n_k n_iw)) (r, i) /\
  fst (mesh (chi0_r_tau F beta mu t n_k n_iw)) =
    fst (mesh (bubble_chi0 F (G0 beta mu t n_k n_iw))) /\
  tau_beta (snd (mesh (chi0_r_tau F beta mu t n_k n_iw))) =
    tau_beta (snd (mesh (bubble_chi0 F (G0 beta mu t n_k n_iw)))) /\
  tau_n (snd (mesh (chi0_r_tau F beta mu t n_k n_iw))) =
    tau_n (snd (mesh (bubble_chi0 F (G0 beta mu t n_k n_iw)))) /\
  tau_statistic (snd (mesh (chi0_r_tau F beta mu t n_k n_iw))) = Fermion /\
  tau_statistic (snd (mesh (bubble_chi0 F (G0 beta mu t n_k n_iw)))) = Boson.
Proof.
  intros HK Hb Hn Hp.
  assert (Hp' := In_reflect_r_tau F beta n_k n_iw (r, i) Hp).
  split; [|split; [|split; [|split; [|split]]]].
  - rewrite chi0_r_tau_value by assumption.
    pose proof (bubble_chi0_value F (G0 beta mu t n_k n_iw) r i) as H.
    cbn zeta in H. rewrite mesh_G0 in H.
    assert (Hg : mesh (make_gf_from_fourier_01_k_iw F (G0 beta mu t n_k n_iw)) =
                 r_tau_mesh F beta n_k n_iw).
    { unfold make_gf_from_fourier_01_k_iw. cbn [mesh]. rewrite mesh_G0. reflexivity. }
    rewrite Hg in H. rewrite H; clear H.
    + rewrite Cmul_comm. f_equal.
      * apply data_G0_r_tau_compiled; [exact HK|].
        unfold reflect_r_tau in Hp'. cbn [fst snd] in Hp'.
        apply In_r_tau_mesh in Hp'. apply Hp'.
      * apply data_G0_r_tau_compiled; [exact HK|].
        apply In_r_tau_mesh in Hp. apply Hp.
    + exact Hb.
    + exact Hn.
    + apply In_bubble_chi0_mesh. rewrite mesh_G0.
      apply In_r_tau_mesh in Hp. exact Hp.
  - rewrite mesh_chi0_r_tau, mesh_bubble_chi0, mesh_G0. reflexivity.
  - rewrite mesh_chi0_r_tau, mesh_bubble_chi0, mesh_G0. reflexivity.
  - rewrite mesh_chi0_r_tau, mesh_bubble_chi0, mesh_G0. reflexivity.
  - rewrite mesh_chi0_r_tau. reflexivity.
  - rewrite mesh_bubble_chi0. reflexivity.
Qed.

Lemma python_chi0_agrees_with_compiled_witness :
  data (chi0_r_tau sum_kernels 4 0 (-1) 3 1) ((1, 2)%Z, 2%Z) =
  data (bubble_chi0 sum_kernels (G0 4 0 (-1) 3 1)) ((1, 2)%Z, 2%Z).
Proof.
  refine (proj1 (python_chi0_agrees_with_compiled sum_kernels 4 0 (-1) 3 1
                   (1, 2)%Z 2%Z _ _ _ _)).
  - exact sum_kernels_read_mesh_only.
  - lra.
  - simpl. lia.
  - simpl. auto 40.
Defined.

Lemma chi0_r_tau_value_at (F : FourierKernels) (beta mu t : R) (n_k n_iw : nat)
    (p : (Z * Z) * Z) :
  0 < beta ->
  (2 <= n_tau_of F n_iw)%nat ->
  In p (points (r_tau_mesh F beta n_k n_iw)) ->
  data (chi0_r_tau F beta mu t n_k n_iw) p =
  (data (G0_r_tau F beta mu t n_k n_iw) p
   * data (G0_r_tau F beta mu t n_k n_iw)
       (reflect_r_tau (r_tau_mesh F beta n_k n_iw) p))%C.
Proof. destruct p as [r i]. apply chi0_r_tau_value. Qed.

Lemma bubble_chi0_value_at (F : FourierKernels) (beta : R) (n_k n_iw : nat)
    (g0 : g_k_iw_type) (p : (Z * Z) * Z) :
  0 < beta ->
  (2 <= n_tau_of F n_iw)%nat ->
  mesh g0 = k_iw_mesh beta n_k n_iw ->
  In p (points (r_tau_mesh F beta n_k n_iw)) ->
  data (bubble_chi0 F g0) p =
  (data (make_gf_from_fourier_01_k_iw F g0)
     (reflect_r_tau (r_tau_mesh F beta n_k n_iw) p)
   * data (make_gf_from_fourier_01_k_iw F g0) p)%C.
Proof.
  destruct p as [r i]. intros Hb Hn Hm Hp.
  assert (Hg : mesh (make_gf_from_fourier_01_k_iw F g0) =
               r_tau_mesh F beta n_k n_iw).
  { unfold make_gf_from_fourier_01_k_iw. cbn [mesh]. rewrite Hm. reflexivity. }
  pose proof (bubble_chi0_value F g0 r i) as H.
  cbn zeta in H. rewrite Hm, Hg in H.
  apply H; [exact Hb | exact Hn |].
  apply In_bubble_chi0_mesh. rewrite Hm.
  apply In_r_tau_mesh in Hp. exact Hp.
Qed.

(** X5: chi0(r, tau) is invariant under the reflection
    (r, tau) -> (-r, beta - tau): on the real-space x imaginary-time mesh
    (beta > 0, at least two time samples) the reflection maps mesh points to
    mesh points, applying it twice gives the point back, and both the python
    product and the local chi0 of [bubble] hold the same value at a point and
    at its reflection. *)
Theorem chi0_reflection_symmetric (F : FourierKernels) (beta mu t : R)
    (n_k n_iw : nat) (g0 : g_k_iw_type) (p : (Z * Z) * Z) :
  0 < beta ->
  (2 <= n_tau_of F n_iw)%nat ->
  In p (points (r_tau_mesh F beta n_k n_iw)) ->
  mesh g0 = k_iw_mesh beta n_k n_iw ->
  let p' := reflect_r_tau (r_tau_mesh F beta n_k n_iw) p in
  In p' (points (r_tau_mesh F beta n_k n_iw)) /\
  reflect_r_tau (r_tau_mesh F beta n_k n_iw) p' = p /\
  data (chi0_r_tau F beta mu t n_k n_iw) p' =
    data (chi0_r_tau F beta mu t n_k n_iw) p /\
  data (bubble_chi0 F g0) p' = data (bubble_chi0 F g0) p.
Proof.
  intros Hb Hn Hp Hm p'.
  assert (Hp' : In p' (points (r_tau_mesh F beta n_k n_iw)))
    by (apply In_reflect_r_tau, Hp).
  assert (Hinv : reflect_r_tau (r_tau_mesh F beta n_k n_iw) p' = p)
    by (apply reflect_r_tau_involutive, Hp).
  split; [exact Hp'|]. split; [exact Hinv|]. split.
  - rewrite (chi0_r_tau_value_at F beta mu t n_k n_iw p') by assumption.
    rewrite (chi0_r_tau_value_at F beta mu t n_k n_iw p) by assumption.
    rewrite Hinv. apply Cmul_comm.
  - rewrite (bubble_chi0_value_at F beta n_k n_iw g0 p') by assumption.
    rewrite (bubble_chi0_value_at F beta n_k n_iw g0 p) by assumption.
    rewrite Hinv. apply Cmul_comm.
Qed.

Lemma chi0_reflection_symmetric_witness :
  data (chi0_r_tau sample_kernels 4 0 (-1) 3 1) ((2, 1)%Z, 4%Z) =
  data (chi0_r_tau sample_kernels 4 0 (-1) 3 1) ((1, 2)%Z, 2%Z).
Proof.
  refine (proj1 (proj2 (proj2 (chi0_reflection_symmetric sample_kernels
                   4 0 (-1) 3 1 (G0 4 0 (-1) 3 1) ((1, 2)%Z, 2%Z) _ _ _ _)))).
  - lra.
  - simpl. lia.
  - simpl. auto 40.
  - apply mesh_G0.
Defined.

(** ** The mesh of the susceptibility returned by [bubble] *)

Lemma adjoint_mesh_round_trip (m : MeshBrillouinZone) :
  make_adjoint_mesh_r (make_adjoint_mesh_k m) = m.
Proof. destruct m as [[bl] n]. reflexivity. Qed.

(** X6: the container returned by [bubble] lives on the momentum mesh of its
    argument and on a bosonic frequency mesh with the beta of the argument;
    when the dual mesh sizes of the library undo each other (as the default
    sizes do), [bubble(G0)] of the notebook lives exactly on [q_iW_mesh], the
    mesh of the python [chi0] container. *)
Theorem bubble_output_mesh (F : FourierKernels) (beta mu t : R) (n_k n_iw : nat) :
  (forall g0 : g_k_iw_type, exists chi,
      bubble F g0 = Returned chi /\
      fst (mesh chi) = fst (mesh g0) /\
      iw_beta (snd (mesh chi)) = iw_beta (snd (mesh g0)) /\
      iw_statistic (snd (mesh chi)) = Boson) /\
  (n_iw_of F (n_tau_of F n_iw) = n_iw ->
   exists chi,
     bubble F (G0 beta mu t n_k n_iw) = Returned chi /\
     mesh chi = q_iW_mesh beta n_k n_iw).
Proof.
  split.
  - intros g0. eexists. split; [reflexivity|].
    unfold make_gf_from_fourier_01_r_tau. cbn [mesh fst snd].
    rewrite mesh_bubble_chi0. cbn [fst snd].
    rewrite adjoint_mesh_round_trip. repeat split.
  - intros Hsize. eexists. split; [reflexivity|].
    unfold make_gf_from_fourier_01_r_tau. cbn [mesh].
    rewrite mesh_bubble_chi0, mesh_G0. cbn [fst snd k_iw_mesh iw_mesh iw_beta iw_n].
    unfold make_adjoint_mesh_tau. cbn [tau_beta tau_statistic tau_n].
    rewrite Hsize. reflexivity.
Qed.

Lemma bubble_output_mesh_witness :
  exists chi,
    bubble sample_kernels (G0 4 0 (-1) 3 2) = Returned chi /\
    mesh chi = q_iW_mesh 4 3 2.
Proof.
  refine (proj2 (bubble_output_mesh sample_kernels 4 0 (-1) 3 2) _).
  reflexivity.
Defined.

(** ** More on the RPA closure *)

Lemma Cinv_C1 : Cinv C1 = C1.
Proof. apply C_eq; simpl; unfold Cnorm2; simpl; field. Qed.

Lemma Cmul_C1_r (a : C) : (a * C1)%C = a.
Proof. apply C_eq; simpl; ring. Qed.

Lemma Cnorm2_nonzero (a : C) : a <> C0 -> Cnorm2 a <> 0.
Proof.
  intros Ha Hn. apply Ha. unfold Cnorm2 in Hn.
  apply C_eq; simpl; nra.
Qed.

Lemma Cmul_Cinv_cancel (a b : C) : b <> C0 -> (b * (a * Cinv b))%C = a.
Proof.
  intros Hb. apply Cnorm2_nonzero in Hb. unfold Cnorm2 in Hb.
  apply C_eq; simpl; unfold Cnorm2; field; exact Hb.
Qed.

(** X7: without interaction the RPA susceptibility is twice the bubble: for
    U = 0, [chi_RPA] holds 2 chi0 at every mesh index. *)
Theorem chi_RPA_U0 {M} `{Mesh M} (chi0 : Gf M) (p : index M) :
  data (chi_RPA 0 chi0) p = (RtoC 2 * data chi0 p)%C.
Proof.
  unfold chi_RPA, Gf_mul, inverse, Gf_rsub, Gf_scale. cbn [data].
  replace (RtoC 1 - RtoC 0 * data chi0 p)%C with C1
    by (apply C_eq; simpl; ring).
  rewrite Cinv_C1. apply Cmul_C1_r.
Qed.

(** X8: wherever the denominator 1 - U chi0 does not vanish, the RPA
    susceptibility solves the resummed equation
    chi = 2 chi0 + U chi0 chi, i.e. (1 - U chi0) chi = 2 chi0. *)
Theorem chi_RPA_resummation {M} `{Mesh M} (U : R) (chi0 : Gf M) (p : index M) :
  (RtoC 1 - RtoC U * data chi0 p)%C <> C0 ->
  ((RtoC 1 - RtoC U * data chi0 p) * data (chi_RPA U chi0) p)%C =
    (RtoC 2 * data chi0 p)%C /\
  data (chi_RPA U chi0) p =
    (RtoC 2 * data chi0 p + RtoC U * data chi0 p * data (chi_RPA U chi0) p)%C.
Proof.
  intros Hd.
  assert (E : ((RtoC 1 - RtoC U * data chi0 p) * data (chi_RPA U chi0) p)%C =
              (RtoC 2 * data chi0 p)%C).
  { unfold chi_RPA, Gf_mul, inverse, Gf_rsub, Gf_scale. cbn [data].
    apply Cmul_Cinv_cancel, Hd. }
  split; [exact E|].
  rewrite <- E. apply C_eq; simpl; ring.
Qed.

Lemma chi_RPA_resummation_witness :
  ((RtoC 1 - RtoC 2 * mkC (1 / 4) 1)
   * @data (MeshBrillouinZone * MeshImFreq) _
       (@chi_RPA (MeshBrillouinZone * MeshImFreq) _ 2
          (@setitem (MeshBrillouinZone * MeshImFreq) _
             (Gf_new (q_iW_mesh 4 2 1)) ((1, 0)%Z, 0%Z) (mkC (1 / 4) 1)))
       ((1, 0)%Z, 0%Z))%C =
  (RtoC 2 * mkC (1 / 4) 1)%C.
Proof.
  refine (proj1 (@chi_RPA_resummation (MeshBrillouinZone * MeshImFreq) _ 2
    (@setitem (MeshBrillouinZone * MeshImFreq) _
       (Gf_new (q_iW_mesh 4 2 1)) ((1, 0)%Z, 0%Z) (mkC (1 / 4) 1))
    ((1, 0)%Z, 0%Z) _)).
  intros E. apply (f_equal Im) in E. simpl in E. lra.
Defined.

(** X9: where chi0 is real, chi0 = x with U x < 1, the RPA susceptibility is
    the real number 2 x / (1 - U x); for x >= 0 and U >= 0 it is at least the
    non-interacting value 2 x (the interaction enhances the response). *)
Theorem chi_RPA_real_enhanced {M} `{Mesh M} (U x : R) (chi0 : Gf M) (p : index M) :
  data chi0 p = RtoC x ->
  U * x < 1 ->
  data (chi_RPA U chi0) p = RtoC (2 * x / (1 - U * x)) /\
  (0 <= x -> 0 <= U -> 2 * x <= Re (data (chi_RPA U chi0) p)).
Proof.
  intros Hx Hd.
  assert (E : data (chi_RPA U chi0) p = RtoC (2 * x / (1 - U * x))).
  { unfold chi_RPA, Gf_mul, inverse, Gf_rsub, Gf_scale. cbn [data].
    rewrite Hx. apply C_eq; simpl; unfold Cnorm2; simpl; field; nra. }
  split; [exact E|].
  intros Hx0 HU0. rewrite E. cbn [Re RtoC].
  apply (Rmult_le_reg_r (1 - U * x)); [lra|].
  replace (2 * x / (1 - U * x) * (1 - U * x)) with (2 * x) by (field; lra).
  nra.
Qed.

Lemma chi_RPA_real_enhanced_witness :
  @data (MeshBrillouinZone * MeshImFreq) _
    (@chi_RPA (MeshBrillouinZone * MeshImFreq) _ 2
       (@setitem (MeshBrillouinZone * MeshImFreq) _
          (Gf_new (q_iW_mesh 4 2 1)) ((0, 0)%Z, 0%Z) (RtoC (1 / 4))))
    ((0, 0)%Z, 0%Z) =
  RtoC (2 * (1 / 4) / (1 - 2 * (1 / 4))).
Proof.
  refine (proj1 (@chi_RPA_real_enhanced (MeshBrillouinZone * MeshImFreq) _
    2 (1 / 4)
    (@setitem (MeshBrillouinZone * MeshImFreq) _
       (Gf_new (q_iW_mesh 4 2 1)) ((0, 0)%Z, 0%Z) (RtoC (1 / 4)))
    ((0, 0)%Z, 0%Z) _ _)).
  - reflexivity.
  - lra.
Defined.

(** ** More on the non-interacting Green's function *)

Lemma Re_G0_denominator (beta mu t : R) (n_k n_iw : nat)
    (p : index (MeshBrillouinZone * MeshImFreq)) :
  Re (G0_denominator beta mu t n_k n_iw p) =
  mu - eps BL (TB t) (k_value (k_mesh n_k) (fst p)).
Proof.
  unfold G0_denominator, Cadd, Csub, iw_value, Cmul, Ci, RtoC. cbn [Re Im]. ring.
Qed.

Lemma In_k_iw_mesh (beta : R) (n_k n_iw : nat) (k : Z * Z) (n : Z) :
  In (k, n) (points (k_iw_mesh beta n_k n_iw)) <->
  In k (grid n_k) /\ (- Z.of_nat n_iw <= n < Z.of_nat n_iw)%Z.
Proof.
  cbn [points MeshProduct k_iw_mesh fst snd]. rewrite in_prod_iff.
  cbn [points Mesh_BrillouinZone Mesh_ImFreq k_mesh k_n].
  rewrite In_Z_range. unfold iw_first_index, iw_size.
  cbn [iw_mesh iw_statistic iw_n]. intuition lia.
Qed.

Lemma Re_Cdiv_C1 (z : C) : Re (C1 / z)%C = Re z / Cnorm2 z.
Proof. simpl. unfold Rdiv. ring. Qed.

Lemma Im_Cdiv_C1 (z : C) : Im (C1 / z)%C = - Im z / Cnorm2 z.
Proof. simpl. unfold Rdiv. ring. Qed.

Lemma Cnorm2_Cconj (z : C) : Cnorm2 (Cconj z) = Cnorm2 z.
Proof. unfold Cnorm2, Cconj. cbn [Re Im]. ring. Qed.

Lemma Cdiv_C1_Cconj (z : C) : (C1 / Cconj z)%C = Cconj (C1 / z)%C.
Proof.
  apply C_eq.
  - rewrite Re_Cdiv_C1, Cnorm2_Cconj. unfold Cconj. cbn [Re].
    rewrite Re_Cdiv_C1. reflexivity.
  - rewrite Im_Cdiv_C1, Cnorm2_Cconj. unfold Cconj at 1 2. cbn [Im].
    rewrite Im_Cdiv_C1. unfold Rdiv. ring.
Qed.

Lemma matsubara_positive (beta : R) (n : Z) :
  0 < beta -> (0 <= n)%Z -> 0 < PI * IZR (2 * n + 1) / beta.
Proof.
  intros Hb Hn. unfold Rdiv.
  apply Rmult_lt_0_compat; [|apply Rinv_0_lt_compat, Hb].
  apply Rmult_lt_0_compat; [apply PI_RGT_0|].
  apply IZR_lt. lia.
Qed.

(** X10: at every mesh point G0 has the closed form
    ((mu - eps) - i w) / ((mu - eps)^2 + w^2) with w = (2n+1) pi / beta; for
    beta > 0 and a non-negative Matsubara index its imaginary part is
    negative, so the plotted weight -1/pi Im G0(k, i omega_0) is positive. *)
Theorem G0_closed_form (beta mu t : R) (n_k n_iw : nat) (k : Z * Z) (n : Z) :
  0 < beta ->
  In (k, n) (points (k_iw_mesh beta n_k n_iw)) ->
  let e := eps BL (TB t) (k_value (k_mesh n_k) k) in
  let w := PI * IZR (2 * n + 1) / beta in
  Re (data (G0 beta mu t n_k n_iw) (k, n)) = (mu - e) / ((mu - e) * (mu - e) + w * w) /\
  Im (data (G0 beta mu t n_k n_iw) (k, n)) = - w / ((mu - e) * (mu - e) + w * w) /\
  ((0 <= n)%Z -> 0 < -1 / PI * Im (data (G0 beta mu t n_k n_iw) (k, n))).
Proof.
  intros Hb Hp e w.
  assert (HRe : Re (data (G0 beta mu t n_k n_iw) (k, n)) =
                (mu - e) / ((mu - e) * (mu - e) + w * w)).
  { rewrite data_G0 by exact Hp. rewrite Re_Cdiv_C1. unfold Cnorm2.
    rewrite Re_G0_denominator, Im_G0_denominator. reflexivity. }
  assert (HIm : Im (data (G0 beta mu t n_k n_iw) (k, n)) =
                - w / ((mu - e) * (mu - e) + w * w)).
  { rewrite data_G0 by exact Hp. rewrite Im_Cdiv_C1. unfold Cnorm2.
    rewrite Re_G0_denominator, Im_G0_denominator. reflexivity. }
  split; [exact HRe|]. split; [exact HIm|].
  intros Hn. rewrite HIm.
  assert (Hw : 0 < w) by (apply matsubara_positive; assumption).
  assert (HN : 0 < (mu - e) * (mu - e) + w * w).
  { apply Rplus_le_lt_0_compat; [apply (Rle_0_sqr (mu - e))|].
    apply Rmult_lt_0_compat; exact Hw. }
  replace (-1 / PI * (- w / ((mu - e) * (mu - e) + w * w)))
    with (/ PI * (w * / ((mu - e) * (mu - e) + w * w)))
    by (field; split; [lra | apply PI_neq0]).
  apply Rmult_lt_0_compat; [apply Rinv_0_lt_compat, PI_RGT_0|].
  apply Rmult_lt_0_compat; [exact Hw | apply Rinv_0_lt_compat, HN].
Qed.

Lemma G0_closed_form_witness :
  0 < -1 / PI * Im (data (G0 4 0 (-1) 3 1) ((1, 2)%Z, 0%Z)).
Proof.
  refine (proj2 (proj2 (G0_closed_form 4 0 (-1) 3 1 (1, 2)%Z 0%Z _ _)) _).
  - lra.
  - simpl. auto 30.
  - lia.
Defined.

(** X11: the fermionic frequency mesh is closed under n -> -n-1 (i omega to
    -i omega) and G0 at the mirrored frequency is the complex conjugate:
    G0(k, -i omega_n) = conj G0(k, i omega_n) at every mesh point. *)
Theorem G0_conjugate_frequency (beta mu t : R) (n_k n_iw : nat) (k : Z * Z) (n : Z) :
  In (k, n) (points (k_iw_mesh beta n_k n_iw)) ->
  In (k, (- n - 1)%Z) (points (k_iw_mesh beta n_k n_iw)) /\
  iw_value (iw_mesh beta n_iw) (- n - 1) = Cconj (iw_value (iw_mesh beta n_iw) n) /\
  data (G0 beta mu t n_k n_iw) (k, (- n - 1)%Z) =
    Cconj (data (G0 beta mu t n_k n_iw) (k, n)).
Proof.
  intros Hp.
  assert (Hp' : In (k, (- n - 1)%Z) (points (k_iw_mesh beta n_k n_iw))).
  { apply In_k_iw_mesh in Hp. apply In_k_iw_mesh. intuition lia. }
  assert (Hodd : IZR (2 * (- n - 1) + 1) = - IZR (2 * n + 1)).
  { rewrite <- opp_IZR. f_equal. lia. }
  split; [exact Hp'|]. split.
  - unfold iw_value, Cconj, Cmul, Ci, RtoC. cbn [Re Im iw_mesh iw_statistic iw_beta].
    rewrite Hodd. apply C_eq; cbn [Re Im]; unfold Rdiv; ring.
  - rewrite !data_G0 by assumption. rewrite <- Cdiv_C1_Cconj. f_equal.
    apply C_eq.
    + rewrite Re_G0_denominator. unfold Cconj. cbn [Re fst].
      rewrite Re_G0_denominator. reflexivity.
    + rewrite Im_G0_denominator. unfold Cconj. cbn [Im snd].
      rewrite Im_G0_denominator. cbn [snd]. rewrite Hodd. unfold Rdiv. ring.
Qed.

Lemma G0_conjugate_frequency_witness :
  data (G0 4 0 (-1) 3 2) ((1, 2)%Z, (-2)%Z) =
  Cconj (data (G0 4 0 (-1) 3 2) ((1, 2)%Z, 1%Z)).
Proof.
  refine (proj2 (proj2 (G0_conjugate_frequency 4 0 (-1) 3 2 (1, 2)%Z 1%Z _))).
  simpl. auto 40.
Defined.

Lemma Cnorm2_Cdiv_C1 (z : C) : Cnorm2 z <> 0 -> Cnorm2 (C1 / z)%C = / Cnorm2 z.
Proof.
  intros Hz. unfold Cnorm2 at 1. rewrite Re_Cdiv_C1, Im_Cdiv_C1.
  unfold Cnorm2 in *. field. exact Hz.
Qed.

Lemma odd_square_ge_1 (n : Z) : 1 <= IZR (2 * n + 1) * IZR (2 * n + 1).
Proof. rewrite <- mult_IZR. apply IZR_le. nia. Qed.

(** X12: for beta > 0 the modulus of G0 is at most beta / pi at every mesh
    point (|G0|^2 <= (beta/pi)^2): the smallest fermionic frequency pi/beta
    keeps the values away from the pole. *)
Theorem G0_bounded (beta mu t : R) (n_k n_iw : nat)
    (p : index (MeshBrillouinZone * MeshImFreq)) :
  0 < beta ->
  In p (points (k_iw_mesh beta n_k n_iw)) ->
  Cnorm2 (data (G0 beta mu t n_k n_iw) p) <= (beta / PI) * (beta / PI).
Proof.
  intros Hb Hp. rewrite data_G0 by exact Hp.
  set (z := G0_denominator beta mu t n_k n_iw p).
  assert (Hlow : (PI / beta) * (PI / beta) <= Cnorm2 z).
  { unfold Cnorm2, z. rewrite Im_G0_denominator.
    pose proof (odd_square_ge_1 (snd p)) as Hodd.
    pose proof (Rle_0_sqr (Re (G0_denominator beta mu t n_k n_iw p))) as Hre.
    unfold Rsqr in Hre.
    assert (Hc : 0 < (PI / beta) * (PI / beta)).
    { apply Rmult_lt_0_compat; apply Rdiv_lt_0_compat; try exact Hb; apply PI_RGT_0. }
    replace (PI * IZR (2 * snd p + 1) / beta * (PI * IZR (2 * snd p + 1) / beta))
      with ((PI / beta) * (PI / beta) * (IZR (2 * snd p + 1) * IZR (2 * snd p + 1)))
      by (field; lra).
    nra. }
  assert (Hc : 0 < (PI / beta) * (PI / beta)).
  { apply Rmult_lt_0_compat; apply Rdiv_lt_0_compat; try exact Hb; apply PI_RGT_0. }
  rewrite Cnorm2_Cdiv_C1 by lra.
  replace (beta / PI * (beta / PI)) with (/ (PI / beta * (PI / beta)))
    by (field; split; [apply PI_neq0 | lra]).
  apply Rinv_le_contravar; assumption.
Qed.

Lemma G0_bounded_witness :
  Cnorm2 (data (G0 4 0 (-1) 3 1) ((1, 2)%Z, 0%Z)) <= (4 / PI) * (4 / PI).
Proof.
  refine (G0_bounded 4 0 (-1) 3 1 ((1, 2)%Z, 0%Z) _ _).
  - lra.
  - simpl. auto 30.
Defined.

(** ** More on the dispersion *)

Lemma dot_pair (x y : R) (d : list Z) :
  dot [x; y] d = x * IZR (nth 0 d 0%Z) + y * IZR (nth 1 d 0%Z).
Proof.
  destruct d as [|a [|b rest]]; unfold dot;
    cbn [combine map fold_right fst snd nth]; ring.
Qed.

Lemma cos_period_Z (x : R) (z : Z) : cos (x + 2 * PI * IZR z) = cos x.
Proof.
  destruct (Z_le_gt_dec 0 z) as [Hz|Hz].
  - rewrite <- (Z2Nat.id z) by exact Hz. rewrite <- INR_IZR_INZ.
    replace (x + 2 * PI * INR (Z.to_nat z)) with (x + 2 * INR (Z.to_nat z) * PI) by ring.
    apply cos_period.
  - rewrite <- (cos_period (x + 2 * PI * IZR z) (Z.to_nat (- z))).
    f_equal. rewrite INR_IZR_INZ, Z2Nat.id by lia. rewrite opp_IZR. ring.
Qed.

Lemma sin_period_Z (x : R) (z : Z) : sin (x + 2 * PI * IZR z) = sin x.
Proof.
  destruct (Z_le_gt_dec 0 z) as [Hz|Hz].
  - rewrite <- (Z2Nat.id z) by exact Hz. rewrite <- INR_IZR_INZ.
    replace (x + 2 * PI * INR (Z.to_nat z)) with (x + 2 * INR (Z.to_nat z) * PI) by ring.
    apply sin_period.
  - rewrite <- (sin_period (x + 2 * PI * IZR z) (Z.to_nat (- z))).
    f_equal. rewrite INR_IZR_INZ, Z2Nat.id by lia. rewrite opp_IZR. ring.
Qed.

Lemma Cexp_i_period_Z (x : R) (z : Z) : Cexp_i (x + 2 * PI * IZR z) = Cexp_i x.
Proof. unfold Cexp_i. rewrite cos_period_Z, sin_period_Z. reflexivity. Qed.

(** X13: [eps] is periodic over the Brillouin zone for every hopping table
    with integer displacements: shifting the momentum by a reciprocal lattice
    vector 2 pi (a, b) does not change the band energy, so no folding of the
    momentum is needed before the call. *)
Theorem eps_periodic (T : TightBinding) (kx ky : R) (rest : list R) (a b : Z) :
  eps BL T ((kx + 2 * PI * IZR a) :: (ky + 2 * PI * IZR b) :: rest) =
  eps BL T (kx :: ky :: rest).
Proof.
  rewrite !eps_unfold, !fourier_hop_rescaled.
  change (dim BL) with 2%nat. cbn [seq map nth].
  unfold dispersion_sum. do 2 f_equal.
  apply map_ext. intros e. f_equal.
  rewrite !dot_pair.
  replace ((kx + 2 * PI * IZR a) * IZR (nth 0 (fst e) 0%Z)
           + (ky + 2 * PI * IZR b) * IZR (nth 1 (fst e) 0%Z))
    with (kx * IZR (nth 0 (fst e) 0%Z) + ky * IZR (nth 1 (fst e) 0%Z)
          + 2 * PI * IZR (a * nth 0 (fst e) 0%Z + b * nth 1 (fst e) 0%Z))
    by (rewrite plus_IZR, !mult_IZR; ring).
  apply Cexp_i_period_Z.
Qed.

(** X14: the nearest-neighbour band is bounded by the half bandwidth,
    |eps(k)| <= 4 |t| for every momentum k. *)
Theorem eps_bandwidth (t : R) (k : list R) :
  Rabs (eps BL (TB t) k) <= 4 * Rabs t.
Proof.
  rewrite eps_TB.
  pose proof (COS_bound (nth 0 k 0)) as [Hx1 Hx2].
  pose proof (COS_bound (nth 1 k 0)) as [Hy1 Hy2].
  replace (2 * t * (cos (nth 0 k 0) + cos (nth 1 k 0)))
    with (t * (2 * (cos (nth 0 k 0) + cos (nth 1 k 0)))) by ring.
  rewrite Rabs_mult.
  replace (4 * Rabs t) with (Rabs t * 4) by ring.
  apply Rmult_le_compat_l; [apply Rabs_pos|].
  apply Rabs_le. lra.
Qed.

(** ** Nesting *)

Lemma eps_shift_Q (t kx ky : R) (rest : list R) :
  eps BL (TB t) ((kx + PI) :: (ky + PI) :: rest) = - eps BL (TB t) (kx :: ky :: rest).
Proof. rewrite !eps_TB. cbn [nth]. rewrite !neg_cos. ring. Qed.

Lemma cos_plus_Q_index (h : nat) (i : Z) :
  (0 <= i < Z.of_nat (2 * h))%Z ->
  cos (2 * PI * IZR ((i + Z.of_nat (2 * h) / 2) mod Z.of_nat (2 * h)) / INR (2 * h)) =
  - cos (2 * PI * IZR i / INR (2 * h)).
Proof.
  intros Hi.
  assert (Hh : (Z.of_nat (2 * h) / 2 = Z.of_nat h)%Z).
  { rewrite Nat2Z.inj_mul. change (Z.of_nat 2) with 2%Z.
    rewrite Z.mul_comm. apply Z.div_mul. lia. }
  assert (Hn : INR (2 * h) = 2 * INR h).
  { rewrite mult_INR. simpl. ring. }
  assert (Hh0 : INR h <> 0).
  { apply not_0_INR. lia. }
  rewrite Hh, Hn.
  destruct (Z_lt_ge_dec (i + Z.of_nat h) (Z.of_nat (2 * h))) as [Hs|Hs].
  - rewrite Z.mod_small by lia.
    rewrite plus_IZR, <- INR_IZR_INZ.
    replace (2 * PI * (IZR i + INR h) / (2 * INR h))
      with (2 * PI * IZR i / (2 * INR h) + PI) by (field; exact Hh0).
    apply neg_cos.
  - rewrite <- (Z_mod_plus_full (i + Z.of_nat h) (-1) (Z.of_nat (2 * h))).
    rewrite Z.mod_small by lia.
    replace (i + Z.of_nat h + -1 * Z.of_nat (2 * h))%Z with (i - Z.of_nat h)%Z by lia.
    rewrite minus_IZR, <- INR_IZR_INZ.
    replace (2 * PI * (IZR i - INR h) / (2 * INR h))
      with (2 * PI * IZR i / (2 * INR h) + PI + 2 * PI * IZR (-1))
      by (simpl; field; exact Hh0).
    rewrite cos_period_Z. apply neg_cos.
Qed.

Lemma plus_Q_range (n i : Z) :
  (0 <= i < n)%Z -> (0 <= (i + n / 2) mod n < n)%Z.
Proof. intros Hi. apply Z.mod_pos_bound. lia. Qed.

(** X15: perfect nesting of the nearest-neighbour band: eps(k + Q) = -eps(k)
    for Q = (pi, pi) and every momentum k; on a momentum mesh of even
    resolution k + Q is again a mesh point, and at mu = 0 the stored G0
    satisfies G0(k + Q, i omega) = - conj G0(k, i omega). *)
Theorem G0_nesting (beta t : R) (h n_iw : nat) (k : Z * Z) (n : Z) :
  In (k, n) (points (k_iw_mesh beta (2 * h) n_iw)) ->
  let k' := plus_Q (k_mesh (2 * h)) k in
  (forall kx ky rest,
      eps BL (TB t) ((kx + PI) :: (ky + PI) :: rest) =
      - eps BL (TB t) (kx :: ky :: rest)) /\
  In (k', n) (points (k_iw_mesh beta (2 * h) n_iw)) /\
  eps BL (TB t) (k_value (k_mesh (2 * h)) k') =
    - eps BL (TB t) (k_value (k_mesh (2 * h)) k) /\
  Re (data (G0 beta 0 t (2 * h) n_iw) (k', n)) =
    - Re (data (G0 beta 0 t (2 * h) n_iw) (k, n)) /\
  Im (data (G0 beta 0 t (2 * h) n_iw) (k', n)) =
    Im (data (G0 beta 0 t (2 * h) n_iw) (k, n)).
Proof.
  intros Hp k'.
  assert (Hk : In k (grid (2 * h))) by (apply In_k_iw_mesh in Hp; apply Hp).
  pose proof Hk as Hk2. apply In_grid in Hk2. destruct Hk2 as [Hi Hj].
  assert (Hp' : In (k', n) (points (k_iw_mesh beta (2 * h) n_iw))).
  { apply In_k_iw_mesh. split; [|apply In_k_iw_mesh in Hp; apply Hp].
    apply In_grid. unfold k', plus_Q. cbn [fst snd k_mesh k_n].
    split; apply plus_Q_range; assumption. }
  assert (He : eps BL (TB t) (k_value (k_mesh (2 * h)) k') =
               - eps BL (TB t) (k_value (k_mesh (2 * h)) k)).
  { rewrite !eps_TB. unfold k', k_value, plus_Q. cbn [nth fst snd k_n k_mesh].
    rewrite (cos_plus_Q_index h (fst k) Hi), (cos_plus_Q_index h (snd k) Hj). ring. }
  split; [intros; apply eps_shift_Q|]. split; [exact Hp'|]. split; [exact He|].
  rewrite !data_G0 by assumption.
  rewrite !Re_Cdiv_C1, !Im_Cdiv_C1. unfold Cnorm2.
  rewrite !Re_G0_denominator, !Im_G0_denominator. cbn [fst snd].
  rewrite He.
  replace ((0 - - eps BL (TB t) (k_value (k_mesh (2 * h)) k))
           * (0 - - eps BL (TB t) (k_value (k_mesh (2 * h)) k)))
    with ((0 - eps BL (TB t) (k_value (k_mesh (2 * h)) k))
          * (0 - eps BL (TB t) (k_value (k_mesh (2 * h)) k))) by ring.
  split; unfold Rdiv; ring.
Qed.

Lemma G0_nesting_witness :
  Re (data (G0 4 0 (-1) (2 * 2) 1) ((3, 2)%Z, 0%Z)) =
  - Re (data (G0 4 0 (-1) (2 * 2) 1) ((1, 0)%Z, 0%Z)).
Proof.
  refine (proj1 (proj2 (proj2 (proj2
            (G0_nesting 4 (-1) 2 1 (1, 0)%Z 0%Z _))))).
  simpl. auto 40.
Defined.

(** ** The plotting grid and the plotted frequency *)

Lemma nth_linspace (start stop : R) (num i : nat) :
  (i < num)%nat ->
  nth i (linspace start stop num) 0 =
  start + INR i * ((stop - start) / (INR num - 1)).
Proof.
  intros Hi. unfold linspace.
  rewrite (nth_indep _ 0 (start + INR 0 * ((stop - start) / (INR num - 1))))
    by (rewrite length_map, length_seq; exact Hi).
  rewrite (map_nth (fun j => start + INR j * ((stop - start) / (INR num - 1)))).
  rewrite seq_nth by exact Hi. reflexivity.
Qed.

(** X16: the plotting grid [q_linear] has n_q + 1 samples; its sample i is
    2 pi i / n_q, which for i < n_q is exactly the momentum component of the
    mesh point with index i, and its last sample is 2 pi: the susceptibility
    is plotted at mesh momenta only. *)
Theorem q_linear_on_mesh (n_k i : nat) (j : Z) :
  List.length (q_linear n_k) = S n_k /\
  ((0 < n_k)%nat -> nth n_k (q_linear n_k) 0 = 2 * PI) /\
  ((i < n_k)%nat ->
   nth i (q_linear n_k) 0 = nth 0 (k_value (q_mesh n_k) (Z.of_nat i, j)) 0 /\
   nth i (q_linear n_k) 0 = nth 1 (k_value (q_mesh n_k) (j, Z.of_nat i)) 0).
Proof.
  assert (Hstep : INR (n_k + 1) - 1 = INR n_k).
  { rewrite plus_INR. simpl. ring. }
  split; [|split].
  - unfold q_linear, linspace, n_q. rewrite length_map, length_seq. lia.
  - intros Hn.
    assert (Hn0 : INR n_k <> 0) by (apply not_0_INR; lia).
    unfold q_linear, n_q. rewrite nth_linspace by lia.
    rewrite Hstep. field. exact Hn0.
  - intros Hi.
    assert (Hn0 : INR n_k <> 0) by (apply not_0_INR; lia).
    assert (Hval : nth i (q_linear n_k) 0 = 2 * PI * INR i / INR n_k).
    { unfold q_linear, n_q. rewrite nth_linspace by lia.
      rewrite Hstep. field. exact Hn0. }
    split.
    + rewrite Hval. unfold k_value, q_mesh, n_q. cbn [nth fst snd k_n].
      rewrite <- INR_IZR_INZ. reflexivity.
    + rewrite Hval. unfold k_value, q_mesh, n_q. cbn [nth fst snd k_n].
      rewrite <- INR_IZR_INZ. reflexivity.
Qed.

Lemma q_linear_on_mesh_witness :
  nth 1 (q_linear 4) 0 = nth 0 (k_value (q_mesh 4) (1%Z, 0%Z)) 0.
Proof.
  refine (proj1 (proj2 (proj2 (q_linear_on_mesh 4 1 0%Z)) _)). lia.
Defined.

(** X17: the Matsubara index 0 used by every plot is a point of both
    frequency meshes as soon as n_iw >= 1; on the bosonic mesh it is the
    static frequency i Omega = 0, on the fermionic mesh the lowest positive
    frequency i pi / beta. *)
Theorem zero_index_frequencies (beta : R) (n_iw : nat) :
  (1 <= n_iw)%nat ->
  In 0%Z (points (iw_mesh beta n_iw)) /\
  In 0%Z (points (iW_mesh beta n_iw)) /\
  iw_value (iW_mesh beta n_iw) 0 = C0 /\
  iw_value (iw_mesh beta n_iw) 0 = mkC 0 (PI / beta).
Proof.
  intros Hn. split; [|split; [|split]].
  - cbn [points Mesh_ImFreq]. apply In_Z_range.
    unfold iw_first_index, iw_size. cbn [iw_mesh iw_statistic iw_n]. lia.
  - cbn [points Mesh_ImFreq]. apply In_Z_range.
    unfold iw_first_index, iw_size. cbn [iW_mesh iw_statistic iw_n].
    unfold n_iW. lia.
  - unfold iw_value, Cmul, Ci, RtoC, C0. cbn [Re Im iW_mesh iw_statistic iw_beta].
    apply C_eq; cbn [Re Im]; simpl; unfold Rdiv; ring.
  - unfold iw_value, Cmul, Ci, RtoC. cbn [Re Im iw_mesh iw_statistic iw_beta].
    apply C_eq; cbn [Re Im]; simpl; unfold Rdiv; ring.
Qed.

Lemma zero_index_frequencies_witness :
  iw_value (iW_mesh 4 20) 0 = C0.
Proof.
  refine (proj1 (proj2 (proj2 (zero_index_frequencies 4 20 _)))). lia.
Defined.
